(** * cfg: layered configuration loading (file, environment, defaults)

    A shallow embedding of the field-resolution engine of the [cfg] package:
    [Load], [processCfg], [processField], [setFromEnv], [formatEnvKey],
    [setDefaultValue], [setValue] and [setSlice], together with the pieces of
    the Go standard library they lean on ([strconv], [strings]).

    Conventions.
    - A Go [string] is a sequence of bytes: Rocq's [string].
    - A [reflect.Value] that addresses a settable location is a static type
      plus a pointer into a store ([gmap loc data]); Go memory is
      zero-initialised, so a location absent from the store reads as the zero
      value of its type.
    - A Go function that mutates its target and returns an [error] is a
      state transformer returning the new state together with either the
      error or the result: mutations made before a failure persist.
    - The process environment is a finite map from names to values;
      [os.LookupEnv] is its lookup. *)

From Stdlib Require Import ZArith Ascii String List Bool Lia.
From stdpp Require Import base option list gmap strings fin_maps.

#[local] Set Warnings "-register-all".

Local Open Scope string_scope.
Local Open Scope Z_scope.

(** ** Bytes *)

Module Byte.

Definition code (c : ascii) : Z := Z.of_N (N_of_ascii c).

Definition of_code (z : Z) : ascii := ascii_of_N (Z.to_N z).

(** ['0' <= c && c <= '9'] *)
Definition is_digit (c : ascii) : bool := (48 <=? code c) && (code c <=? 57).

(** ['a' <= c && c <= 'z'] *)
Definition is_lower (c : ascii) : bool := (97 <=? code c) && (code c <=? 122).

(** [c >= utf8.RuneSelf] *)
Definition is_multibyte (c : ascii) : bool := 128 <=? code c.

(** [c - '0'] *)
Definition digit (c : ascii) : Z := code c - 48.

(** [c -= 'a' - 'A'] *)
Definition upper (c : ascii) : ascii :=
  if is_lower c then of_code (code c - 32) else c.

End Byte.

(** ** reflect.Kind *)

Module reflect.

Inductive Kind : Set :=
| Invalid | Bool | Int | Int8 | Int16 | Int32 | Int64
| Uint | Uint8 | Uint16 | Uint32 | Uint64 | Uintptr
| Float32 | Float64 | Complex64 | Complex128
| Array | Chan | Func | Interface | Map | Ptr | Slice | String | Struct
| UnsafePointer.

#[global] Instance Kind_eq_dec : EqDecision Kind.
Proof. solve_decision. Defined.

End reflect.

(** ** Errors *)

(** What the [error] values built by the package and by the library calls it
    makes stand for.  [ErrWrapEnv] and [ErrWrapDefault] are the two
    [fmt.Errorf("...: %w", err)] wrappers of [processField]. *)
Inductive error : Type :=
| ErrSyntax (fn : string) (input : string)      (* strconv.ErrSyntax *)
| ErrRange (fn : string) (input : string)       (* strconv.ErrRange *)
| ErrLibrary (fn : string) (input : string)     (* any other failure of a library call *)
| ErrUnsupportedType (kind : reflect.Kind)      (* "unsupported type ..." *)
| ErrRequiredAndDefault                         (* "field cannot have both a required validation and a default value" *)
| ErrRequired                                   (* "required validation failed" *)
| ErrWrapEnv (cause : error)                    (* "unable to set from env: %w" *)
| ErrWrapDefault (cause : error)                (* "unable to set default: %w" *)
| ErrNotStructPtr                               (* "cfg must be a pointer to a struct" *)
| ErrInvalidSources
| ErrFileNotFound (names : list string)         (* "%s: %w", f.filename, ErrFileNotFound *)
| ErrPanic (msg : string).                      (* a run-time panic of the reflect package *)

(** ** strconv *)

Module strconv.

(** [strconv.ParseBool] *)
Definition ParseBool (str : string) : error + bool :=
  if bool_decide (str ∈ ["1"; "t"; "T"; "TRUE"; "true"; "True"]) then inr true
  else if bool_decide (str ∈ ["0"; "f"; "F"; "FALSE"; "false"; "False"]) then inr false
  else inl (ErrSyntax "ParseBool" str).

Definition maxUint64 : Z := 2 ^ 64 - 1.

(** The digit loop of [strconv.ParseUint] for base 10: [n] is the
    accumulator, a [uint64], so [n*10 + d] wraps modulo [2^64] and the
    loop detects the wrap by [n1 < n]. *)
Fixpoint parseDigits (s0 : string) (maxVal : Z) (s : string) (n : Z) : error + Z :=
  match s with
  | EmptyString => inr n
  | String c rest =>
      if negb (Byte.is_digit c) then inl (ErrSyntax "ParseUint" s0)
      else
        let d := Byte.digit c in
        if maxUint64 / 10 + 1 <=? n then inl (ErrRange "ParseUint" s0)
        else
          let n10 := n * 10 in
          let n1 := (n10 + d) mod 2 ^ 64 in
          if (n1 <? n10) || (maxVal <? n1) then inl (ErrRange "ParseUint" s0)
          else parseDigits s0 maxVal rest n1
  end.

(** [strconv.ParseUint(s, 10, bitSize)] for [0 < bitSize <= 64]. *)
Definition ParseUint (s : string) (bitSize : Z) : error + Z :=
  match s with
  | EmptyString => inl (ErrSyntax "ParseUint" s)
  | _ => parseDigits s (2 ^ bitSize - 1) s 0
  end.

(** [strconv.ParseInt(s, 10, bitSize)] for [0 < bitSize <= 64]. *)
Definition ParseInt (s : string) (bitSize : Z) : error + Z :=
  match s with
  | EmptyString => inl (ErrSyntax "ParseInt" s)
  | String c rest =>
      let neg := bool_decide (c = "-"%char) in
      let s' := if bool_decide (c = "+"%char) || neg then rest else s in
      match ParseUint s' bitSize with
      | inl (ErrRange _ _) => inl (ErrRange "ParseInt" s)
      | inl _ => inl (ErrSyntax "ParseInt" s)
      | inr un =>
          let cutoff := 2 ^ (bitSize - 1) in
          if negb neg && (cutoff <=? un) then inl (ErrRange "ParseInt" s)
          else if neg && (cutoff <? un) then inl (ErrRange "ParseInt" s)
          else inr (if neg then - un else un)
      end
  end.

End strconv.

(** ** strings *)

Module strings.

(** The table a [strings.NewReplacer] with single-byte [old] strings
    builds: the replacement of byte [c] is the [new] of the first pair whose
    [old] is [c]. *)
Fixpoint replacement (oldnew : list (ascii * string)) (c : ascii) : option string :=
  match oldnew with
  | [] => None
  | (o, n) :: rest => if bool_decide (o = c) then Some n else replacement rest c
  end.

(** [byteStringReplacer.Replace]: every byte that has a replacement is
    substituted by it, every other byte is copied. *)
Fixpoint Replace (oldnew : list (ascii * string)) (s : string) : string :=
  match s with
  | EmptyString => EmptyString
  | String c rest =>
      match replacement oldnew c with
      | Some n => n +:+ Replace oldnew rest
      | None => String c (Replace oldnew rest)
      end
  end.

Fixpoint isASCII (s : string) : bool :=
  match s with
  | EmptyString => true
  | String c rest => negb (Byte.is_multibyte c) && isASCII rest
  end.

Fixpoint mapBytes (f : ascii -> ascii) (s : string) : string :=
  match s with
  | EmptyString => EmptyString
  | String c rest => String (f c) (mapBytes f rest)
  end.

Fixpoint reverse_onto (acc s : string) : string :=
  match s with
  | EmptyString => acc
  | String c rest => reverse_onto (String c acc) rest
  end.

Definition reverse (s : string) : string := reverse_onto EmptyString s.

(** [strings.ToUpper]: the ASCII fast path maps ['a'..'z'] to ['A'..'Z']
    byte by byte; any other string goes through [unicode.ToUpper] rune by
    rune, here [mapUpper]. *)
Definition ToUpper (mapUpper : string -> string) (s : string) : string :=
  if isASCII s then mapBytes Byte.upper s else mapUpper s.

End strings.

(** ** The rest of the Go runtime

    The library calls whose results the engine stores without looking into
    them: floating point, durations, timestamps, regular expressions, the
    Unicode branch of [strings.ToUpper], [filepath.Join] and the decoded
    contents of a configuration file. *)

Class GoRuntime : Type := {
  Float : Type;                                   (* float64 *)
  Time : Type;                                    (* time.Time *)
  Regexp : Type;                                  (* regexp.Regexp *)
  Vals : Type;                                    (* map[string]interface{} *)
  float_zero : Float;
  time_zero : Time;
  regexp_zero : Regexp;
  vals_empty : Vals;                              (* make(map[string]interface{}) *)
  ParseFloat : string -> error + Float;           (* strconv.ParseFloat(s, 64) *)
  toFloat32 : Float -> Float;                     (* float64(float32(x)) *)
  ParseDuration : string -> error + Z;            (* time.ParseDuration *)
  time_Parse : string -> string -> error + Time;  (* time.Parse(layout, value) *)
  regexp_Compile : string -> error + Regexp;      (* regexp.Compile *)
  unicode_ToUpper : string -> string;             (* strings.Map(unicode.ToUpper, s) *)
  filepath_Join : string -> string -> string;     (* filepath.Join(dir, name) *)
}.

(** ** A state monad whose state outlives a failure *)

Definition M (E S A : Type) : Type := S -> S * (E + A).

Definition ret {E S A} (a : A) : M E S A := fun s => (s, inr a).

Definition throw {E S A} (e : E) : M E S A := fun s => (s, inl e).

Definition bind {E S A B} (m : M E S A) (k : A -> M E S B) : M E S B :=
  fun s => match m s with
           | (s', inl e) => (s', inl e)
           | (s', inr a) => k a s'
           end.

Definition gets {E S A} (f : S -> A) : M E S A := fun s => (s, inr (f s)).

Definition put {E S} (s : S) : M E S unit := fun _ => (s, inr tt).

(** [if v, err := call(); err != nil { return err }] *)
Definition try {E S A} (r : E + A) : M E S A := fun s => (s, r).

(** [if err := m; err != nil { return wrap(err) }] *)
Definition wrapErr {E E' S A} (w : E -> E') (m : M E S A) : M E' S A :=
  fun s => match m s with
           | (s', inl e) => (s', inl (w e))
           | (s', inr a) => (s', inr a)
           end.

Declare Scope go_scope.
Delimit Scope go_scope with go.
Notation "x <- m ;;; k" := (bind m (fun x => k))
  (at level 100, m at next level, right associativity) : go_scope.
Notation "m ;;; k" := (bind m (fun _ => k))
  (at level 100, right associativity) : go_scope.
Local Open Scope go_scope.

(** ** Types and values seen through reflection *)

(** The static type of a location.  [TBasic k] is any type whose kind [k] is
    neither [Ptr], [Slice] nor [Struct] and that is not [time.Duration]
    (so [int8], a named [type Level int], [chan int], [interface{}], ...). *)
Inductive type : Type :=
| TBasic (k : reflect.Kind)
| TDuration                      (* time.Duration, of kind Int64 *)
| TTime                          (* time.Time, of kind Struct *)
| TRegexp                        (* regexp.Regexp, of kind Struct *)
| TStruct (fields : list type)   (* any other struct type *)
| TPtr (elem : type)
| TSlice (elem : type).

(** [reflect.Type.Kind] *)
Definition Kind (t : type) : reflect.Kind :=
  match t with
  | TBasic k => k
  | TDuration => reflect.Int64
  | TTime | TRegexp | TStruct _ => reflect.Struct
  | TPtr _ => reflect.Ptr
  | TSlice _ => reflect.Slice
  end.

(** The kinds of the two integer cases of [setValue]. *)
Definition signedKinds : list reflect.Kind :=
  [reflect.Int; reflect.Int8; reflect.Int16; reflect.Int32; reflect.Int64].

Definition unsignedKinds : list reflect.Kind :=
  [reflect.Uint; reflect.Uint8; reflect.Uint16; reflect.Uint32; reflect.Uint64].

(** [reflect.Type.Bits] for the integer kinds; [int] and [uint] are 64 bits
    wide ([strconv.IntSize] on the 64-bit platforms). *)
Definition Bits (k : reflect.Kind) : Z :=
  match k with
  | reflect.Int8 | reflect.Uint8 => 8
  | reflect.Int16 | reflect.Uint16 => 16
  | reflect.Int32 | reflect.Uint32 | reflect.Float32 => 32
  | _ => 64
  end.

(** [reflect.Value.SetInt(x)] stores [intN(x)]: the conversion keeps the low
    [N] bits of the [int64] and reads them as a signed number. *)
Definition SetInt (k : reflect.Kind) (x : Z) : Z :=
  let w := Bits k in
  (x + 2 ^ (w - 1)) mod 2 ^ w - 2 ^ (w - 1).

(** [reflect.Value.SetUint(x)] stores [uintN(x)]. *)
Definition SetUint (k : reflect.Kind) (x : Z) : Z := x mod 2 ^ Bits k.

Section Values.

Context `{GoRuntime}.

(** The contents of a location.  A pointer owns what it points to; a
    slice is [nil] ([None]) or a sequence of elements. *)
Inductive data : Type :=
| DBool (b : bool)
| DInt (i : Z)                     (* signed integers and durations *)
| DUint (u : Z)
| DFloat (x : Float)
| DString (s : string)
| DTime (t : Time)
| DRegexp (re : Regexp)
| DStruct (fields : list data)
| DPtr (pointee : option data)
| DSlice (elems : option (list data))
| DOpaque.                         (* the zero value of any other kind *)

(** The zero value of a type: what [reflect.New] and [reflect.MakeSlice]
    allocate and what a fresh variable holds. *)
Fixpoint zero (t : type) : data :=
  match t with
  | TBasic k =>
      match k with
      | reflect.Bool => DBool false
      | reflect.Int | reflect.Int8 | reflect.Int16 | reflect.Int32
      | reflect.Int64 => DInt 0
      | reflect.Uint | reflect.Uint8 | reflect.Uint16 | reflect.Uint32
      | reflect.Uint64 | reflect.Uintptr => DUint 0
      | reflect.Float32 | reflect.Float64 => DFloat float_zero
      | reflect.String => DString ""
      | _ => DOpaque
      end
  | TDuration => DInt 0
  | TTime => DTime time_zero
  | TRegexp => DRegexp regexp_zero
  | TStruct fields => DStruct (map zero fields)
  | TPtr _ => DPtr None
  | TSlice _ => DSlice None
  end.

Definition loc : Type := nat.

(** A settable [reflect.Value]: its type and the location it addresses. *)
Record Value : Type := { typ : type; ptr : loc }.

(** The contents of the location a [reflect.Value] addresses. *)
Definition load (σ : gmap loc data) (fv : Value) : data :=
  default (zero (typ fv)) (σ !! ptr fv).

(** Runs [m], which works on the contents of one location, on the location
    that [fv] addresses. *)
Definition at_value {E A} (fv : Value) (m : M E data A) : M E (gmap loc data) A :=
  fun σ => let '(d, r) := m (load σ fv) in (<[ptr fv := d]> σ, r).

(** [slice.Index(i)]: runs [m] on element [i] of a slice; out of range the
    reflect package panics. *)
Definition at_index {A} (i : nat) (m : M error data A) : M error (list data) A :=
  fun slice =>
    match slice !! i with
    | Some d => let '(d', r) := m d in (<[i := d']> slice, r)
    | None => (slice, inl (ErrPanic "reflect: slice index out of range"))
    end.

(** ** The package's own data *)

Record cfg : Type := {
  filename : list string;
  dirs : list string;
  tag : string;
  timeLayout : string;
  useEnv : bool;
  useStrict : bool;
  ignoreFile : bool;
  envPrefix : string;
}.

Definition defaultCfg : cfg := {|
  filename := ["config.yaml"; "secret.yaml"];
  dirs := ["."];
  tag := "cfg";
  timeLayout := "2006-01-02T15:04:05Z07:00";
  useEnv := false;
  useStrict := false;
  ignoreFile := false;
  envPrefix := "";
|}.

(** [type Option func(f *cfg)] and the options of the package. *)
Definition Option : Type := cfg -> cfg.

Definition File (name : string) : Option := fun f => {|
  filename := filename f ++ [name]; dirs := dirs f; tag := tag f;
  timeLayout := timeLayout f; useEnv := useEnv f; useStrict := useStrict f;
  ignoreFile := ignoreFile f; envPrefix := envPrefix f |}.

Definition IgnoreFile : Option := fun f => {|
  filename := filename f; dirs := dirs f; tag := tag f;
  timeLayout := timeLayout f; useEnv := useEnv f; useStrict := useStrict f;
  ignoreFile := true; envPrefix := envPrefix f |}.

Definition Dirs (ds : list string) : Option := fun f => {|
  filename := filename f; dirs := ds; tag := tag f;
  timeLayout := timeLayout f; useEnv := useEnv f; useStrict := useStrict f;
  ignoreFile := ignoreFile f; envPrefix := envPrefix f |}.

Definition Tag (key : string) : Option := fun f => {|
  filename := filename f; dirs := dirs f; tag := key;
  timeLayout := timeLayout f; useEnv := useEnv f; useStrict := useStrict f;
  ignoreFile := ignoreFile f; envPrefix := envPrefix f |}.

Definition TimeLayout (layout : string) : Option := fun f => {|
  filename := filename f; dirs := dirs f; tag := tag f;
  timeLayout := layout; useEnv := useEnv f; useStrict := useStrict f;
  ignoreFile := ignoreFile f; envPrefix := envPrefix f |}.

Definition UseEnv (prefix : string) : Option := fun f => {|
  filename := filename f; dirs := dirs f; tag := tag f;
  timeLayout := timeLayout f; useEnv := true; useStrict := useStrict f;
  ignoreFile := ignoreFile f; envPrefix := prefix |}.

Definition UseStrict : Option := fun f => {|
  filename := filename f; dirs := dirs f; tag := tag f;
  timeLayout := timeLayout f; useEnv := useEnv f; useStrict := true;
  ignoreFile := ignoreFile f; envPrefix := envPrefix f |}.

(** The options a caller can pass, as data: [toOption] gives the function
    each of them stands for. *)
Inductive optionSpec : Type :=
| OptFile (name : string)
| OptIgnoreFile
| OptDirs (ds : list string)
| OptTag (key : string)
| OptTimeLayout (layout : string)
| OptUseEnv (prefix : string)
| OptUseStrict.

Definition toOption (o : optionSpec) : Option :=
  match o with
  | OptFile name => File name
  | OptIgnoreFile => IgnoreFile
  | OptDirs ds => Dirs ds
  | OptTag key => Tag key
  | OptTimeLayout layout => TimeLayout layout
  | OptUseEnv prefix => UseEnv prefix
  | OptUseStrict => UseStrict
  end.

(** [for _, opt := range options { opt(conf) }] on [defaultCfg()]. *)
Definition applyOptions (options : list Option) : cfg :=
  foldl (fun conf opt => opt conf) defaultCfg options.

(** The names given by the [File] options of a list, in order. *)
Definition fileNames (opts : list optionSpec) : list string :=
  omap (fun o => match o with OptFile name => Some name | _ => None end) opts.

(** One entry of the flattened field list: the location ([v] in the
    source), its rendered path (the result of [path()] in the source) and
    what the struct tags say. *)
Record field : Type := {
  fieldV : Value;
  fieldPath : string;
  required : bool;
  setDefault : bool;
  defaultVal : string;
}.

(** [fieldErrors] is [map[string]error]; [Load] returns either one of the
    fatal errors or the collected field errors. *)
Inductive loadError : Type :=
| Fatal (e : error)
| FieldErrors (errs : gmap string error).

(** *** What a location of a given type may hold *)

(** [n] times pointer to [t], and the value reached through [n] pointers. *)
Definition ptrTo (n : nat) (t : type) : type := Nat.iter n TPtr t.

Definition ptrVal (n : nat) (d : data) : data :=
  Nat.iter n (fun p => DPtr (Some p)) d.

(** The contents of a location once every [nil] pointer on the way to the
    pointee has been given a fresh zero value, as the [Ptr] case of
    [setValue] does before it recurses. *)
Fixpoint allocated (t : type) (d : data) : data :=
  match t with
  | TPtr elem =>
      DPtr (Some (allocated elem (match d with
                                  | DPtr (Some p) => p
                                  | _ => zero elem
                                  end)))
  | _ => d
  end.

(** [fits t d]: [d] has the shape of a value of type [t], one of the types
    [setValue] can set, and an integer lies within the width of its kind. *)
Fixpoint fits (t : type) (d : data) : bool :=
  match t with
  | TBasic k =>
      match d with
      | DBool _ => bool_decide (k = reflect.Bool)
      | DInt i =>
          bool_decide (k ∈ signedKinds)
          && (- 2 ^ (Bits k - 1) <=? i) && (i <? 2 ^ (Bits k - 1))
      | DUint u =>
          bool_decide (k ∈ unsignedKinds) && (0 <=? u) && (u <? 2 ^ Bits k)
      | DFloat _ => bool_decide (k ∈ [reflect.Float32; reflect.Float64])
      | DString _ => bool_decide (k = reflect.String)
      | _ => false
      end
  | TDuration => match d with DInt _ => true | _ => false end
  | TTime => match d with DTime _ => true | _ => false end
  | TRegexp => match d with DRegexp _ => true | _ => false end
  | TStruct _ => false
  | TPtr elem =>
      match d with
      | DPtr None => true
      | DPtr (Some p) => fits elem p
      | _ => false
      end
  | TSlice elem =>
      match d with
      | DSlice None => true
      | DSlice (Some elems) => forallb (fits elem) elems
      | _ => false
      end
  end.

(** The kinds that no case of [setValue] takes. *)
Definition unsupportedKinds : list reflect.Kind :=
  [reflect.Invalid; reflect.Uintptr; reflect.Complex64; reflect.Complex128;
   reflect.Array; reflect.Chan; reflect.Func; reflect.Interface; reflect.Map;
   reflect.UnsafePointer].

End Values.

(** ** decodeFile

    [decodeFile] opens the file and hands it to the decoder its extension
    selects.  The file system and the three decoders are the libraries'
    business: [os.Open], [yaml.NewDecoder(fd).Decode(&vals)],
    [json.NewDecoder(fd).Decode(&vals)] and [toml.LoadReader(fd)] followed
    by [ToMap()]. *)

Class Decoders : Type := {
  Handle : Type;                                  (* *os.File *)
  Decoded : Type;                                 (* interface{} *)
  os_Open : string -> error + Handle;
  yaml_Decode : Handle -> gmap string Decoded -> error + gmap string Decoded;
  json_Decode : Handle -> gmap string Decoded -> error + gmap string Decoded;
  toml_LoadReader : Handle -> error + gmap string Decoded;
}.

Module Decode.

(** The loop of [filepath.Ext], which walks the path from its last byte
    down to the first path separator: [r] is what is left of the reversed
    path and [acc] the bytes already passed. *)
Fixpoint extFrom (acc : string) (r : string) : string :=
  match r with
  | EmptyString => EmptyString
  | String c r' =>
      if bool_decide (c = "/"%char) then EmptyString
      else if bool_decide (c = "."%char) then String c acc
      else extFrom (String c acc) r'
  end.

(** [filepath.Ext], with [/] as the path separator. *)
Definition Ext (path : string) : string :=
  extFrom EmptyString (strings.reverse path).

(** What [decodeFile] returns when it fails: the error of a library, or its
    own "unsupported file extension". *)
Inductive fileError : Type :=
| Library (e : error)
| UnsupportedExtension.

Section Body.

Context `{Decoders}.

Definition fromLibrary {A} (r : error + A) : fileError + A :=
  match r with
  | inl e => inl (Library e)
  | inr a => inr a
  end.

(** [for field, val := range tree.ToMap() { vals[field] = val }] *)
Definition assignAll (tree vals : gmap string Decoded) : gmap string Decoded :=
  map_fold (fun field val vals => <[field := val]> vals) vals tree.

Definition decodeFile (vals : gmap string Decoded) (file : string)
    : fileError + gmap string Decoded :=
  match os_Open file with
  | inl err => inl (Library err)
  | inr fd =>
      let ext := Ext file in
      if bool_decide (ext = ".yaml") || bool_decide (ext = ".yml")
      then fromLibrary (yaml_Decode fd vals)
      else if bool_decide (ext = ".json")
      then fromLibrary (json_Decode fd vals)
      else if bool_decide (ext = ".toml")
      then match toml_LoadReader fd with
           | inl err => inl (Library err)
           | inr tree => inr (assignAll tree vals)
           end
      else inl UnsupportedExtension
  end.

End Body.

End Decode.

(** ** A runtime to run the definitions on

    Floats are restricted to integer literals, durations to one whole number
    followed by one of the units [s], [m] and [h], timestamps and regular
    expressions are kept as their source text, and no character outside
    ASCII has an upper-case form. *)

Module Demo.

Fixpoint splitDigits (s : string) : string * string :=
  match s with
  | EmptyString => (EmptyString, EmptyString)
  | String c rest =>
      if Byte.is_digit c
      then let '(ds, u) := splitDigits rest in (String c ds, u)
      else (EmptyString, s)
  end.

Definition parseDuration (s : string) : error + Z :=
  let '(ds, u) := splitDigits s in
  match strconv.ParseInt ds 64 with
  | inl _ => inl (ErrLibrary "time.ParseDuration" s)
  | inr n =>
      if bool_decide (u = "s") then inr (n * 1000000000)
      else if bool_decide (u = "m") then inr (n * 60000000000)
      else if bool_decide (u = "h") then inr (n * 3600000000000)
      else inl (ErrLibrary "time.ParseDuration" s)
  end.

Definition parseTime (layout value : string) : error + string :=
  if bool_decide (value = "") then inl (ErrLibrary "time.Parse" value)
  else inr value.

#[local] Instance runtime : GoRuntime := {|
  Float := Z;
  Time := string;
  Regexp := string;
  Vals := list (string * string);
  float_zero := 0;
  time_zero := "";
  regexp_zero := "";
  vals_empty := [];
  ParseFloat := fun s => strconv.ParseInt s 64;
  toFloat32 := fun x => x;
  ParseDuration := parseDuration;
  time_Parse := parseTime;
  regexp_Compile := fun s => inr s;
  unicode_ToUpper := fun s => s;
  filepath_Join := fun dir name => dir +:+ "/" +:+ name;
|}.

(** Modelled from the spec: [isZero], whose body is not part of this
    development.  "A field is zero/empty under the type's natural empty
    value: empty string, numeric zero, false, nil pointer, empty/nil
    sequence, zero-value timestamp." *)
Fixpoint isZero (t : type) (d : data) : bool :=
  match d with
  | DBool b => negb b
  | DInt i => i =? 0
  | DUint u => u =? 0
  | DFloat x => x =? 0
  | DString s => bool_decide (s = "")
  | DTime t => bool_decide (t = "")
  | DRegexp re => bool_decide (re = "")
  | DStruct fields => forallb (isZero t) fields
  | DPtr None => true
  | DPtr (Some _) => false
  | DSlice None => true
  | DSlice (Some elems) => bool_decide (length elems = 0%nat)
  | DOpaque => true
  end.

(** Modelled from the spec: [stringSlice], whose body is not part of this
    development.  "Outer brackets are optional and stripped if present;
    splitting is on top-level commas only", with the bracket depth counted
    while scanning.  [tok] is the token being read, in reverse. *)
Fixpoint scan (depth : nat) (tok : string) (s : string) : list string :=
  match s with
  | EmptyString => [strings.reverse tok]
  | String c rest =>
      if bool_decide (c = ","%char) && bool_decide (depth = 0%nat)
      then strings.reverse tok :: scan depth EmptyString rest
      else if bool_decide (c = "["%char) then scan (S depth) (String c tok) rest
      else if bool_decide (c = "]"%char) then scan (pred depth) (String c tok) rest
      else scan depth (String c tok) rest
  end.

Definition stringSlice (s : string) : list string :=
  let s := match s with
           | String "[" rest => rest
           | _ => s
           end in
  let s := match strings.reverse s with
           | String "]" rest => strings.reverse rest
           | _ => s
           end in
  scan 0 EmptyString s.

(** Modelled from the spec: [isStructPtr], whose body is not part of this
    development.  "The target is a pointer to a struct." *)
Definition isStructPtr (c : Value) (σ : gmap loc data) : bool :=
  match typ c with
  | TPtr elem => bool_decide (Kind elem = reflect.Struct)
  | _ => false
  end.

(** A flattener that yields a field list fixed in advance, as the tests of
    the package build their fields by hand. *)
Definition flattenTo (fields : list field) (c : Value) (tagKey : string)
    (σ : gmap loc data) : gmap loc data * list field :=
  (σ, fields).

(** The fields and the environment of the tests of [processField] and
    [processCfg]. *)

(* X int `cfg:"y" default:"10"` *)
Definition fieldDefault : field := {|
  fieldV := {| typ := TBasic reflect.Int; ptr := 0%nat |};
  fieldPath := "y"; required := false; setDefault := true; defaultVal := "10" |}.

(* X int `cfg:"y" validate:"required"` *)
Definition fieldRequired : field := {|
  fieldV := {| typ := TBasic reflect.Int; ptr := 0%nat |};
  fieldPath := "y"; required := true; setDefault := false; defaultVal := "" |}.

(* X int `cfg:"y" default:"10" validate:"required"` *)
Definition fieldBoth : field := {|
  fieldV := {| typ := TBasic reflect.Int; ptr := 0%nat |};
  fieldPath := "y"; required := true; setDefault := true; defaultVal := "10" |}.

(* X string `cfg:"x" default:"GIRLS"` *)
Definition fieldX : field := {|
  fieldV := {| typ := TBasic reflect.String; ptr := 1%nat |};
  fieldPath := "x"; required := false; setDefault := true; defaultVal := "GIRLS" |}.

(* Ports []int `cfg:"ports" default:"[80,not-a-port]"` *)
Definition fieldPorts : field := {|
  fieldV := {| typ := TSlice (TBasic reflect.Int); ptr := 2%nat |};
  fieldPath := "ports"; required := false; setDefault := true;
  defaultVal := "[80,not-a-port]" |}.

(* Keys []string `cfg:"keys" validate:"required"` *)
Definition fieldKeys : field := {|
  fieldV := {| typ := TSlice (TBasic reflect.String); ptr := 3%nat |};
  fieldPath := "Logger.Metadata.keys"; required := true; setDefault := false;
  defaultVal := "" |}.

Definition confEnv : cfg := UseEnv "fig" defaultCfg.

Definition environ : gmap string string := {[ "FIG_X" := "MEN" ]}.

(** The target of [Load] in the examples. *)
Definition target : Value := {| typ := TPtr (TStruct []); ptr := 9%nat |}.

(** A file system of three files and decoders that read a file as the
    list of its top-level keys, for [Decode.decodeFile] to run on. *)
Definition files : gmap string (list (string * string)) :=
  {[ "./config.yaml" := [("host", "0.0.0.0")];
     "./extra.toml" := [("host", "localhost"); ("port", "8080")];
     "./notes" := [("host", "nowhere")] ]}.

Definition openFile (name : string) : error + list (string * string) :=
  match files !! name with
  | Some body => inr body
  | None => inl (ErrLibrary "os.Open" name)
  end.

#[local] Instance decoders : Decoders := {|
  Handle := list (string * string);
  Decoded := string;
  os_Open := openFile;
  yaml_Decode := fun fd vals => inr (list_to_map fd ∪ vals);
  json_Decode := fun fd vals => inr (list_to_map fd ∪ vals);
  toml_LoadReader := fun fd => inr (list_to_map fd);
|}.

End Demo.

(** ** The engine *)

Section Engine.

#[local] Set Default Proof Using "Type".

Context `{GoRuntime}.

(** The helpers of the package that the engine calls and whose bodies are
    not part of this development; everything below holds whatever they
    compute. *)
Variable isZero : type -> data -> bool.          (* isZero(v reflect.Value) *)
Variable stringSlice : string -> list string.    (* stringSlice(s) *)
Variable flattenCfg :                            (* flattenCfg(cfg, tagKey) *)
  Value -> string -> gmap loc data -> gmap loc data * list field.
Variable isStructPtr : Value -> gmap loc data -> bool.
Variable fileExists : string -> bool.
Variable decodeFile : cfg -> Vals -> string -> error + Vals.
Variable decodeMap : cfg -> Vals -> Value -> M error (gmap loc data) unit.

(** *** formatEnvKey *)

Definition formatEnvKey (f : cfg) (key : string) : string :=
  let key := strings.Replace
               [("."%char, "_"); ("["%char, "_"); ("]"%char, "")] key in
  let key := if bool_decide (envPrefix f ≠ "")
             then envPrefix f +:+ "_" +:+ key
             else key in
  strings.ToUpper unicode_ToUpper key.

(** The environment key as the specification words it: every [.] and every
    [[] of the path becomes [_], every []] is dropped, the prefix and [_]
    are put in front when there is a prefix, and the whole is upper-cased. *)
Definition envKeyByte (c : ascii) : string :=
  if bool_decide (c = "."%char) then "_"
  else if bool_decide (c = "["%char) then "_"
  else if bool_decide (c = "]"%char) then ""
  else String c "".

Fixpoint envKeyPath (path : string) : string :=
  match path with
  | EmptyString => EmptyString
  | String c rest => envKeyByte c +:+ envKeyPath rest
  end.

Definition formatEnvKey_spec (prefix path : string) : string :=
  strings.ToUpper unicode_ToUpper
    (match prefix with
     | EmptyString => envKeyPath path
     | _ => prefix +:+ "_" +:+ envKeyPath path
     end).

(** *** setValue and setSlice *)

(** The loop of [setSlice]: element [i] of the new slice is set from the
    [i]-th token, and the first failure ends the loop. *)
Fixpoint setElems (set : string -> M error data unit) (i : nat)
    (ss : list string) : M error (list data) unit :=
  match ss with
  | [] => ret tt
  | s :: rest => at_index i (set s) ;;; setElems set (S i) rest
  end.

(** [setSlice], given [setValue] at the element type and the zero value of
    the element type: the new slice replaces the contents of [sv] only
    after the loop. *)
Definition setSlice (set : string -> M error data unit) (z : data)
    (val : string) : M error data unit :=
  fun sv =>
    let ss := stringSlice val in
    let slice := replicate (length ss) z in
    match setElems set 0 ss slice with
    | (_, inl err) => (sv, inl err)
    | (slice, inr _) => (DSlice (Some slice), inr tt)
    end.

(** The [Int..Int64] case of [setValue]. *)
Definition setInt (t : type) (val : string) : M error data unit :=
  match t with
  | TDuration =>
      d <- try (ParseDuration val) ;;;
      put (DInt d)
  | _ =>
      i <- try (strconv.ParseInt val 64) ;;;
      put (DInt (SetInt (Kind t) i))
  end.

(** The [Struct] case of [setValue]. *)
Definition setStruct (f : cfg) (t : type) (val : string) : M error data unit :=
  match t with
  | TTime =>
      t <- try (time_Parse (timeLayout f) val) ;;;
      put (DTime t)
  | TRegexp =>
      re <- try (regexp_Compile val) ;;;
      put (DRegexp re)
  | _ => throw (ErrUnsupportedType (Kind t))
  end.

Fixpoint setValue (f : cfg) (t : type) (val : string) : M error data unit :=
  match t with
  | TPtr elem =>
      fun fv =>
        let pointee := match fv with
                       | DPtr (Some p) => p
                       | _ => zero elem          (* reflect.New(fv.Type().Elem()) *)
                       end in
        let '(p, r) := setValue f elem val pointee in
        (DPtr (Some p), r)
  | TSlice elem => setSlice (setValue f elem) (zero elem) val
  | _ =>
      match Kind t with
      | reflect.Bool =>
          b <- try (strconv.ParseBool val) ;;;
          put (DBool b)
      | reflect.Int | reflect.Int8 | reflect.Int16 | reflect.Int32
      | reflect.Int64 => setInt t val
      | reflect.Uint | reflect.Uint8 | reflect.Uint16 | reflect.Uint32
      | reflect.Uint64 =>
          i <- try (strconv.ParseUint val 64) ;;;
          put (DUint (SetUint (Kind t) i))
      | reflect.Float32 =>
          x <- try (ParseFloat val) ;;;
          put (DFloat (toFloat32 x))
      | reflect.Float64 =>
          x <- try (ParseFloat val) ;;;
          put (DFloat x)
      | reflect.String => put (DString val)
      | reflect.Struct => setStruct f t val
      | k => throw (ErrUnsupportedType k)
      end
  end.

(** *** setDefaultValue *)

Definition setDefaultValue (f : cfg) (t : type) (val : string) : M error data unit :=
  match Kind t with
  | reflect.Bool => throw (ErrUnsupportedType (Kind t))
  | _ => setValue f t val
  end.

(** *** setFromEnv *)

Definition setFromEnv (f : cfg) (env : gmap string string) (fv : Value)
    (key : string) : M error (gmap loc data) unit :=
  let key := formatEnvKey f key in
  match env !! key with
  | Some val => at_value fv (setValue f (typ fv) val)
  | None => ret tt
  end.

(** *** processField *)

Definition isZeroAt (fv : Value) : M error (gmap loc data) bool :=
  gets (fun σ => isZero (typ fv) (load σ fv)).

(** The three steps of [processField], in the order it runs them. *)

(** [if f.useEnv { if err := f.setFromEnv(...); err != nil { return ... } }] *)
Definition envStep (f : cfg) (env : gmap string string) (fld : field)
    : M error (gmap loc data) unit :=
  if useEnv f
  then wrapErr ErrWrapEnv (setFromEnv f env (fieldV fld) (fieldPath fld))
  else ret tt.

(** [if field.required && isZero(field.v) { return ... }] *)
Definition requiredStep (fld : field) : M error (gmap loc data) unit :=
  z <- isZeroAt (fieldV fld) ;;;
  if required fld && z then throw ErrRequired else ret tt.

(** [if field.setDefault && isZero(field.v) { ... }] *)
Definition defaultStep (f : cfg) (fld : field) : M error (gmap loc data) unit :=
  z <- isZeroAt (fieldV fld) ;;;
  if setDefault fld && z
  then wrapErr ErrWrapDefault
         (at_value (fieldV fld)
            (setDefaultValue f (typ (fieldV fld)) (defaultVal fld)))
  else ret tt.

Definition processField (f : cfg) (env : gmap string string) (fld : field)
    : M error (gmap loc data) unit :=
  if required fld && setDefault fld then throw ErrRequiredAndDefault
  else
    envStep f env fld ;;;
    requiredStep fld ;;;
    defaultStep f fld.

(** *** processCfg *)

(** The loop of [processCfg]: [errs] is the map being filled. *)
Fixpoint processFields (f : cfg) (env : gmap string string)
    (fields : list field) (errs : gmap string error) (σ : gmap loc data)
    : gmap loc data * gmap string error :=
  match fields with
  | [] => (σ, errs)
  | fld :: rest =>
      match processField f env fld σ with
      | (σ', inl err) =>
          processFields f env rest (<[fieldPath fld := err]> errs) σ'
      | (σ', inr _) => processFields f env rest errs σ'
      end
  end.

Definition processCfg (f : cfg) (env : gmap string string) (c : Value)
    : M loadError (gmap loc data) unit :=
  fun σ =>
    let '(σ, fields) := flattenCfg c (tag f) σ in
    let '(σ, errs) := processFields f env fields ∅ σ in
    if (0 <? size errs)%nat then (σ, inl (FieldErrors errs))
    else (σ, inr tt).

(** *** Load *)

Definition findCfgFile (f : cfg) : list string :=
  foldl (fun paths dir =>
           foldl (fun paths name =>
                    let path := filepath_Join dir name in
                    if fileExists path then (paths ++ [path])%list else paths)
                 paths (filename f))
        [] (dirs f).

(** The loop over the files found: each file is decoded into [vals], which
    is then decoded into the target. *)
Fixpoint decodeFiles (f : cfg) (c : Value) (filePaths : list string)
    (vals : Vals) : M error (gmap loc data) unit :=
  match filePaths with
  | [] => ret tt
  | filePath :: rest =>
      vals <- try (decodeFile f vals filePath) ;;;
      decodeMap f vals c ;;;
      decodeFiles f c rest vals
  end.

Definition Load (f : cfg) (env : gmap string string) (c : Value)
    : M loadError (gmap loc data) unit :=
  ok <- gets (isStructPtr c) ;;;
  if negb ok then throw (Fatal ErrNotStructPtr)
  else
    let filePaths := findCfgFile f in
    if ignoreFile f && negb (useEnv f) then throw (Fatal ErrInvalidSources)
    else if bool_decide (length filePaths = 0%nat) && negb (useEnv f)
    then throw (Fatal (ErrFileNotFound (filename f)))
    else
      (if negb (ignoreFile f)
       then wrapErr Fatal (decodeFiles f c filePaths vals_empty)
       else ret tt) ;;;
      processCfg f env c.

(** The package-level [Load(cfg, options...)]. *)
Definition LoadOptions (options : list Option) (env : gmap string string)
    (c : Value) : M loadError (gmap loc data) unit :=
  let conf := foldl (fun conf opt => opt conf) defaultCfg options in
  Load conf env c.

(** *** What the loop of [processCfg] has done after [i] fields *)

(** The store in which field number [i] of [fields] is processed. *)
Definition storeBefore (f : cfg) (env : gmap string string)
    (fields : list field) (i : nat) (σ : gmap loc data) : gmap loc data :=
  foldl (fun σ fld => (processField f env fld σ).1) σ (take i fields).

(** The error, if any, with which field number [i] of [fields] fails. *)
Definition failure (f : cfg) (env : gmap string string)
    (fields : list field) (i : nat) (σ : gmap loc data) : option (string * error) :=
  match fields !! i with
  | Some fld =>
      match (processField f env fld (storeBefore f env fields i σ)).2 with
      | inl err => Some (fieldPath fld, err)
      | inr _ => None
      end
  | None => None
  end.

(** ** Properties *)

(** *** Bytes and strings *)

Lemma upper_not_lower (c : ascii) :
  Byte.is_multibyte c = false -> Byte.is_lower (Byte.upper c) = false.
Proof.
  destruct c as [[] [] [] [] [] [] [] []]; vm_compute; congruence.
Qed.

Lemma ToUpper_no_lower (s : string) :
  strings.isASCII s = true ->
  forallb (fun c => negb (Byte.is_lower c))
    (list_ascii_of_string (strings.ToUpper unicode_ToUpper s)) = true.
Proof.
  intros Hs. unfold strings.ToUpper. rewrite Hs. clear -Hs.
  induction s as [|c s IH]; [reflexivity|].
  simpl in *. apply andb_prop in Hs as [Hc Hs].
  rewrite upper_not_lower by (now apply negb_true_iff in Hc).
  simpl. auto.
Qed.

Lemma Replace_envKeyPath (key : string) :
  strings.Replace [("."%char, "_"); ("["%char, "_"); ("]"%char, "")] key
  = envKeyPath key.
Proof.
  induction key as [|c key IH]; [reflexivity|].
  simpl. rewrite IH. unfold envKeyByte.
  repeat case_bool_decide; subst; try congruence; reflexivity.
Qed.

Lemma isASCII_app (a b : string) :
  strings.isASCII (a +:+ b) = strings.isASCII a && strings.isASCII b.
Proof.
  induction a as [|c a IH]; [reflexivity|].
  simpl. rewrite IH. now rewrite andb_assoc.
Qed.

Lemma isASCII_envKeyPath (key : string) :
  strings.isASCII key = true -> strings.isASCII (envKeyPath key) = true.
Proof.
  induction key as [|c key IH]; [reflexivity|].
  simpl. intros [Hc Hk]%andb_prop.
  rewrite isASCII_app, (IH Hk), andb_true_r.
  unfold envKeyByte. repeat case_bool_decide; try reflexivity.
  simpl. now rewrite Hc.
Qed.

(** C6. [formatEnvKey] computes, for every path and every prefix, the key
    the specification describes: each [.] and each [[] replaced by [_],
    each []] dropped, the prefix and [_] in front when the prefix is not
    empty, and the whole upper-cased (no byte in [a..z] is left when the
    key is ASCII); ["loggers[0].log_level"] gives ["LOGGERS_0_LOG_LEVEL"]
    without a prefix and ["MYAPP_LOGGERS_0_LOG_LEVEL"] with the prefix
    ["myapp"]. *)
Theorem formatEnvKey_correct (f : cfg) (key : string) :
  formatEnvKey f key = formatEnvKey_spec (envPrefix f) key
  /\ (strings.isASCII (envPrefix f +:+ key) = true ->
      forallb (fun c => negb (Byte.is_lower c))
        (list_ascii_of_string (formatEnvKey f key)) = true)
  /\ (envPrefix f = "" ->
      formatEnvKey f "loggers[0].log_level" = "LOGGERS_0_LOG_LEVEL")
  /\ (envPrefix f = "myapp" ->
      formatEnvKey f "loggers[0].log_level" = "MYAPP_LOGGERS_0_LOG_LEVEL").
Proof.
  assert (Hspec : forall k, formatEnvKey f k = formatEnvKey_spec (envPrefix f) k).
  { intros k. unfold formatEnvKey, formatEnvKey_spec.
    rewrite Replace_envKeyPath.
    destruct (envPrefix f) as [|c p]; [reflexivity|].
    now rewrite bool_decide_true by discriminate. }
  split; [apply Hspec|]. split; [|split].
  - intros Hascii. rewrite Hspec. unfold formatEnvKey_spec.
    rewrite isASCII_app in Hascii. apply andb_prop in Hascii as [Hp Hk].
    apply ToUpper_no_lower.
    destruct (envPrefix f) as [|c p] eqn:E; [now apply isASCII_envKeyPath|].
    rewrite <- E in *. rewrite !isASCII_app, Hp.
    now rewrite (isASCII_envKeyPath _ Hk).
  - intros E. rewrite Hspec, E. reflexivity.
  - intros E. rewrite Hspec, E. reflexivity.
Qed.

(** *** strconv *)

Lemma parseDigits_range (s0 s : string) (maxVal n m : Z) :
  0 <= n < 2 ^ 64 -> strconv.parseDigits s0 maxVal s n = inr m -> 0 <= m < 2 ^ 64.
Proof.
  revert n. induction s as [|c s IH]; simpl; intros n Hn.
  - now intros [= <-].
  - destruct (negb (Byte.is_digit c)); [discriminate|].
    destruct (strconv.maxUint64 / 10 + 1 <=? n) eqn:Hcut; [discriminate|].
    destruct (_ || _) eqn:Hov; [discriminate|].
    apply IH. apply Z.mod_pos_bound. lia.
Qed.

Lemma ParseUint_range (s : string) (bitSize m : Z) :
  strconv.ParseUint s bitSize = inr m -> 0 <= m < 2 ^ 64.
Proof.
  destruct s as [|c s]; [discriminate|].
  unfold strconv.ParseUint. apply parseDigits_range. lia.
Qed.

(** [strconv.ParseInt(s, 10, 64)] only returns numbers an [int64] holds. *)
Lemma ParseInt_range (s : string) (i : Z) :
  strconv.ParseInt s 64 = inr i -> - 2 ^ 63 <= i < 2 ^ 63.
Proof.
  destruct s as [|c s]; [discriminate|]. unfold strconv.ParseInt.
  destruct (strconv.ParseUint _ 64) as [[]|un] eqn:Hun; try discriminate.
  apply ParseUint_range in Hun.
  change (2 ^ (64 - 1)) with (2 ^ 63).
  destruct (bool_decide (c = "-"%char)); simpl;
    destruct (2 ^ 63 <=? un) eqn:H1; destruct (2 ^ 63 <? un) eqn:H2;
    try discriminate; intros [= <-]; lia.
Qed.

(** A string with a byte that is neither a digit nor a leading sign is
    not a number for [strconv.ParseUint]. *)
Lemma parseDigits_non_digit (s0 s : string) (maxVal n : Z) (c : ascii) :
  In c (list_ascii_of_string s) -> Byte.is_digit c = false ->
  exists e, strconv.parseDigits s0 maxVal s n = inl e.
Proof.
  revert n. induction s as [|c' s IH]; simpl; intros n Hin Hc; [destruct Hin|].
  destruct (Byte.is_digit c') eqn:Hc'; simpl; [|eauto].
  destruct (_ <=? n); [eauto|]. destruct (_ || _); [eauto|].
  destruct Hin as [->|Hin]; [congruence|]. now apply IH.
Qed.

(** *** setValue on scalars *)

Lemma Kind_Bool_inv (t : type) : Kind t = reflect.Bool -> t = TBasic reflect.Bool.
Proof. destruct t; simpl; congruence. Qed.

Lemma Kind_unsigned_inv (t : type) :
  Kind t ∈ unsignedKinds -> exists k, t = TBasic k /\ k ∈ unsignedKinds.
Proof.
  destruct t; simpl; eauto; intros Hin; exfalso;
    repeat (apply elem_of_cons in Hin as [Hin|Hin]; [discriminate|]);
    now apply elem_of_nil in Hin.
Qed.

Lemma setValue_Bool (f : cfg) (val : string) (d : data) :
  setValue f (TBasic reflect.Bool) val d
  = match strconv.ParseBool val with
    | inl e => (d, inl e)
    | inr b => (DBool b, inr tt)
    end.
Proof. simpl. unfold bind, try, put. now destruct strconv.ParseBool. Qed.

Lemma setValue_signed (f : cfg) (k : reflect.Kind) (val : string) (d : data) :
  k ∈ signedKinds ->
  setValue f (TBasic k) val d
  = match strconv.ParseInt val 64 with
    | inl e => (d, inl e)
    | inr i => (DInt (SetInt k i), inr tt)
    end.
Proof.
  intros Hk.
  repeat (apply elem_of_cons in Hk as [->|Hk]);
    [..|now apply elem_of_nil in Hk];
    simpl; unfold bind, try, put; now destruct strconv.ParseInt.
Qed.

Lemma setValue_unsigned (f : cfg) (k : reflect.Kind) (val : string) (d : data) :
  k ∈ unsignedKinds ->
  setValue f (TBasic k) val d
  = match strconv.ParseUint val 64 with
    | inl e => (d, inl e)
    | inr u => (DUint (SetUint k u), inr tt)
    end.
Proof.
  intros Hk.
  repeat (apply elem_of_cons in Hk as [->|Hk]);
    [..|now apply elem_of_nil in Hk];
    simpl; unfold bind, try, put; now destruct strconv.ParseUint.
Qed.

Lemma setValue_Duration (f : cfg) (val : string) (d : data) :
  setValue f TDuration val d
  = match ParseDuration val with
    | inl e => (d, inl e)
    | inr n => (DInt n, inr tt)
    end.
Proof. simpl. unfold bind, try, put. now destruct ParseDuration. Qed.

(** What does hold of the signed-integer case: a duration goes through
    [time.ParseDuration], any other signed integer through
    [strconv.ParseInt(val, 10, 64)]; the coercion fails, leaving the field
    as it was, on a string with a byte that is no digit (a leading sign
    apart) and on a number that an [int64] does not hold. *)
Lemma setValue_signed_int64 (f : cfg) (k : reflect.Kind) (val : string) (d d' : data) :
  k ∈ signedKinds ->
  setValue f (TBasic k) val d = (d', inr tt) ->
  exists i, strconv.ParseInt val 64 = inr i /\ - 2 ^ 63 <= i < 2 ^ 63
            /\ d' = DInt (SetInt k i).
Proof.
  intros Hk. rewrite (setValue_signed _ _ _ _ Hk).
  destruct strconv.ParseInt as [e|i] eqn:E; [discriminate|].
  intros [= <-]. exists i. eauto using ParseInt_range.
Qed.

(** For the 64-bit kinds [SetInt] stores the parsed number itself: the
    signed-integer case loses nothing on [int] and [int64] fields. *)
Lemma setValue_int64_exact (f : cfg) (k : reflect.Kind) (val : string) (d d' : data) :
  k ∈ [reflect.Int; reflect.Int64] ->
  setValue f (TBasic k) val d = (d', inr tt) ->
  strconv.ParseInt val 64 = inr (match d' with DInt i => i | _ => 0 end)
  /\ exists i, d' = DInt i.
Proof.
  intros Hk Hset.
  assert (Hs : k ∈ signedKinds).
  { unfold signedKinds.
    repeat (apply elem_of_cons in Hk as [->|Hk]); [..|now apply elem_of_nil in Hk];
      repeat constructor. }
  destruct (setValue_signed_int64 _ _ _ _ _ Hs Hset) as (i & Hi & Hrange & ->).
  assert (Hexact : SetInt k i = i).
  { unfold SetInt.
    assert (Hb : Bits k = 64).
    { repeat (apply elem_of_cons in Hk as [->|Hk]); [..|now apply elem_of_nil in Hk];
        reflexivity. }
    rewrite Hb. change (2 ^ (64 - 1)) with (2 ^ 63).
    rewrite Z.mod_small; lia. }
  rewrite Hexact. eauto.
Qed.

(** C7. The coercion of ["300"] into an [int8] field does not fail: the
    string is parsed as a 64-bit integer and stored through
    [reflect.Value.SetInt], which keeps the low eight bits, so the field
    ends up holding 44 and the error is [nil]; likewise ["70000"] into an
    [int16] field leaves 4464 and ["4294967296"] into an [int32] field
    leaves 0. *)
Theorem setValue_narrow_int_truncates (f : cfg) (d : data) :
  setValue f (TBasic reflect.Int8) "300" d = (DInt 44, inr tt)
  /\ setValue f (TBasic reflect.Int16) "70000" d = (DInt 4464, inr tt)
  /\ setValue f (TBasic reflect.Int32) "4294967296" d = (DInt 0, inr tt).
Proof. repeat split. Qed.

Lemma ParseBool_strict (val : string) (b : bool) :
  strconv.ParseBool val = inr b <->
  (b = true /\ val ∈ ["1"; "t"; "T"; "TRUE"; "true"; "True"])
  \/ (b = false /\ val ∈ ["0"; "f"; "F"; "FALSE"; "false"; "False"]).
Proof.
  unfold strconv.ParseBool.
  destruct (bool_decide (val ∈ ["1"; "t"; "T"; "TRUE"; "true"; "True"])) eqn:Ht;
    [|destruct (bool_decide (val ∈ ["0"; "f"; "F"; "FALSE"; "false"; "False"])) eqn:Hf].
  - apply bool_decide_eq_true in Ht. split.
    + intros [= <-]. now left.
    + intros [[-> _]|[-> Hf]]; [reflexivity|]. exfalso.
      repeat (apply elem_of_cons in Ht as [->|Ht];
              [apply (bool_decide_pack _) in Hf; vm_compute in Hf; exact Hf|]).
      now apply elem_of_nil in Ht.
  - apply bool_decide_eq_false in Ht. apply bool_decide_eq_true in Hf. split.
    + intros [= <-]. now right.
    + intros [[-> ?]|[-> _]]; [contradiction|reflexivity].
  - apply bool_decide_eq_false in Ht. apply bool_decide_eq_false in Hf.
    split; [discriminate|]. intros [[_ ?]|[_ ?]]; contradiction.
Qed.

(** C8. A boolean field takes no default: [setDefaultValue] fails on it
    with the unsupported-type error whatever the literal, ["true"]
    included, and leaves it as it was; [setValue], the path the
    environment takes, stores [true] for ["true"] and accepts exactly the
    literals of [strconv.ParseBool]; and ["-5"] is refused by every
    unsigned-integer field, which keeps its value. *)
Theorem boolean_default_exemption (f : cfg) (t : type) (val : string) (d : data) :
  Kind t = reflect.Bool ->
  setDefaultValue f t val d = (d, inl (ErrUnsupportedType reflect.Bool))
  /\ setDefaultValue f t "true" d = (d, inl (ErrUnsupportedType reflect.Bool))
  /\ setValue f t "true" d = (DBool true, inr tt)
  /\ (forall b, setValue f t val d = (DBool b, inr tt) <->
        (b = true /\ val ∈ ["1"; "t"; "T"; "TRUE"; "true"; "True"])
        \/ (b = false /\ val ∈ ["0"; "f"; "F"; "FALSE"; "false"; "False"]))
  /\ ((forall b, strconv.ParseBool val <> inr b) ->
        exists e, setValue f t val d = (d, inl e))
  /\ (forall tu du, Kind tu ∈ unsignedKinds ->
        setValue f tu "-5" du = (du, inl (ErrSyntax "ParseUint" "-5"))).
Proof.
  intros Hk. apply Kind_Bool_inv in Hk as ->.
  split; [reflexivity|]. split; [reflexivity|]. split; [reflexivity|].
  split; [|split].
  - intros b. rewrite setValue_Bool, <- ParseBool_strict.
    destruct (strconv.ParseBool val) as [e|b']; split; congruence.
  - intros Hno. rewrite setValue_Bool.
    destruct (strconv.ParseBool val) as [e|b]; [eauto|]. now destruct (Hno b).
  - intros tu du (k & -> & Hk)%Kind_unsigned_inv.
    now rewrite (setValue_unsigned _ _ _ _ Hk).
Qed.

(** *** setSlice *)

Section SetElems.

Variable set : string -> M error data unit.
Variable z : data.

Lemma at_index_middle {A} (m : M error data A) (pre post : list data) (d : data) :
  at_index (length pre) m (pre ++ d :: post)%list
  = let '(d', r) := m d in ((pre ++ d' :: post)%list, r).
Proof.
  unfold at_index. rewrite list_lookup_middle by reflexivity.
  destruct (m d) as [d' r].
  replace (length pre) with (length pre + 0)%nat by lia.
  now rewrite insert_app_r.
Qed.

(** One turn of the loop on a slice whose elements from [length pre] on
    are still the zero value. *)
Lemma setElems_cons (pre : list data) (s : string) (ss : list string) :
  setElems set (length pre) (s :: ss) (pre ++ replicate (S (length ss)) z)%list
  = match set s z with
    | (d, inl e) => ((pre ++ d :: replicate (length ss) z)%list, inl e)
    | (d, inr _) =>
        setElems set (length (pre ++ [d])%list) ss
          ((pre ++ [d]) ++ replicate (length ss) z)%list
    end.
Proof.
  simpl. unfold bind. rewrite at_index_middle.
  destruct (set s z) as [d [e|[]]]; [reflexivity|].
  rewrite <- app_assoc, length_app. simpl.
  now replace (length pre + 1)%nat with (S (length pre)) by lia.
Qed.

Lemma setElems_all_ok (pre : list data) (ss : list string) (ds : list data) :
  Forall2 (fun s d => set s z = (d, inr tt)) ss ds ->
  setElems set (length pre) ss (pre ++ replicate (length ss) z)%list
  = ((pre ++ ds)%list, inr tt).
Proof.
  intros Hall. revert pre.
  induction Hall as [|s d ss ds Hs _ IH]; intros pre.
  - simpl. now rewrite !app_nil_r.
  - rewrite setElems_cons, Hs, IH. now rewrite <- app_assoc.
Qed.

Lemma setElems_some_fail (pre : list data) (ss : list string)
    (i : nat) (s : string) (d : data) (e : error) :
  ss !! i = Some s -> set s z = (d, inl e) ->
  exists slice e',
    setElems set (length pre) ss (pre ++ replicate (length ss) z)%list
    = (slice, inl e').
Proof.
  revert pre i. induction ss as [|s0 ss IH]; intros pre i Hi Hs; [done|].
  rewrite setElems_cons.
  destruct (set s0 z) as [d0 [e0|[]]] eqn:H0; [eauto|].
  destruct i as [|i]; simpl in Hi.
  - injection Hi as ->. congruence.
  - eapply IH; eauto.
Qed.

(** The error is that of the first token that fails. *)
Lemma setElems_first_fail (pre : list data) (ss : list string) (ds : list data)
    (i : nat) (s : string) (d : data) (e : error) :
  Forall2 (fun s d => set s z = (d, inr tt)) (take i ss) ds ->
  ss !! i = Some s -> set s z = (d, inl e) ->
  exists slice,
    setElems set (length pre) ss (pre ++ replicate (length ss) z)%list
    = (slice, inl e).
Proof.
  revert pre i ds. induction ss as [|s0 ss IH]; intros pre i ds Hok Hi Hs; [done|].
  rewrite setElems_cons. destruct i as [|i]; simpl in *.
  - injection Hi as ->. rewrite Hs. eauto.
  - apply Forall2_cons_inv_l in Hok as (d0 & ds' & H0 & Hok & ->).
    rewrite H0. eapply IH; eauto.
Qed.

End SetElems.

Lemma setValue_Slice (f : cfg) (elem : type) (val : string) :
  setValue f (TSlice elem) val = setSlice (setValue f elem) (zero elem) val.
Proof. reflexivity. Qed.

(** C9. [setSlice] coerces every token of the source string into an
    element of a newly made slice of zero values; when every token
    coerces, the target becomes the new slice; when any token fails to
    coerce, [setSlice] returns an error (that of the first such token) and
    the target keeps the value it had. *)
Theorem setSlice_atomic (f : cfg) (elem : type) (val : string) (sv : data) :
  let coerce := fun s d => setValue f elem s (zero elem) = (d, inr tt) in
  (forall ds, Forall2 coerce (stringSlice val) ds ->
     setSlice (setValue f elem) (zero elem) val sv = (DSlice (Some ds), inr tt))
  /\ (forall i s d e,
        stringSlice val !! i = Some s ->
        setValue f elem s (zero elem) = (d, inl e) ->
        exists e', setSlice (setValue f elem) (zero elem) val sv = (sv, inl e'))
  /\ (forall i s d e ds,
        Forall2 coerce (take i (stringSlice val)) ds ->
        stringSlice val !! i = Some s ->
        setValue f elem s (zero elem) = (d, inl e) ->
        setSlice (setValue f elem) (zero elem) val sv = (sv, inl e))
  /\ (forall sv' e,
        setSlice (setValue f elem) (zero elem) val sv = (sv', inl e) -> sv' = sv)
  /\ setValue f (TSlice elem) val sv
     = setSlice (setValue f elem) (zero elem) val sv.
Proof.
  intros coerce. unfold setSlice. repeat split.
  - intros ds Hall.
    pose proof (setElems_all_ok _ _ [] _ _ Hall) as Hrun.
    simpl in Hrun. now rewrite Hrun.
  - intros i s d e Hi Hs.
    destruct (setElems_some_fail _ _ [] _ _ _ _ _ Hi Hs) as (sl & e' & Hrun).
    simpl in Hrun. rewrite Hrun. eauto.
  - intros i s d e ds Hok Hi Hs.
    destruct (setElems_first_fail _ _ [] _ _ _ _ _ _ Hok Hi Hs) as (sl & Hrun).
    simpl in Hrun. now rewrite Hrun.
  - intros sv' e. destruct setElems as [sl [e'|[]]]; congruence.
Qed.

(** *** setValue overwrites *)

Lemma load_insert (σ : gmap loc data) (fv : Value) (d : data) :
  load (<[ptr fv := d]> σ) fv = d.
Proof. unfold load. now rewrite lookup_insert_eq. Qed.

(** When [setValue] succeeds, what it stores does not depend on what the
    location held. *)
Lemma setValue_overwrites (f : cfg) (t : type) (val : string) (d d' : data) :
  setValue f t val d = (d', inr tt) ->
  forall d0, setValue f t val d0 = (d', inr tt).
Proof.
  revert d d'. induction t as [k| | | |fields|elem IH|elem IH]; intros d d'.
  - destruct k; simpl; unfold bind, try, put, throw;
      try discriminate;
      try (destruct strconv.ParseBool; congruence);
      try (destruct strconv.ParseInt; congruence);
      try (destruct strconv.ParseUint; congruence);
      try (destruct ParseFloat; congruence);
      congruence.
  - simpl. unfold bind, try, put. destruct ParseDuration; congruence.
  - simpl. unfold bind, try, put. destruct time_Parse; congruence.
  - simpl. unfold bind, try, put. destruct regexp_Compile; congruence.
  - simpl. unfold throw. discriminate.
  - simpl. intros Hd d0.
    destruct (setValue f elem val _) as [p [e|[]]] eqn:Hp in Hd; [discriminate|].
    injection Hd as <-.
    now rewrite (IH _ _ Hp).
  - rewrite !setValue_Slice. unfold setSlice.
    destruct setElems as [sl [e|[]]]; congruence.
Qed.

(** *** processField, step by step *)

Lemma envStep_disabled (f : cfg) (env : gmap string string) (fld : field)
    (σ : gmap loc data) :
  useEnv f = false -> envStep f env fld σ = (σ, inr tt).
Proof. unfold envStep. now intros ->. Qed.

Lemma envStep_absent (f : cfg) (env : gmap string string) (fld : field)
    (σ : gmap loc data) :
  env !! formatEnvKey f (fieldPath fld) = None ->
  envStep f env fld σ = (σ, inr tt).
Proof.
  intros Hnone. unfold envStep, setFromEnv, wrapErr. rewrite Hnone.
  now destruct (useEnv f).
Qed.

Lemma envStep_present (f : cfg) (env : gmap string string) (fld : field)
    (σ : gmap loc data) (val : string) :
  useEnv f = true ->
  env !! formatEnvKey f (fieldPath fld) = Some val ->
  envStep f env fld σ
  = match setValue f (typ (fieldV fld)) val (load σ (fieldV fld)) with
    | (d, inl e) => (<[ptr (fieldV fld) := d]> σ, inl (ErrWrapEnv e))
    | (d, inr _) => (<[ptr (fieldV fld) := d]> σ, inr tt)
    end.
Proof.
  intros Hon Hval. unfold envStep, setFromEnv, wrapErr, at_value.
  rewrite Hon, Hval. now destruct setValue as [d [e|[]]].
Qed.

Lemma processField_env_ok (f : cfg) (env : gmap string string) (fld : field)
    (σ σ1 : gmap loc data) :
  required fld && setDefault fld = false ->
  envStep f env fld σ = (σ1, inr tt) ->
  processField f env fld σ = (requiredStep fld ;;; defaultStep f fld) σ1.
Proof.
  intros Hconf Henv. unfold processField. rewrite Hconf.
  unfold bind at 1. now rewrite Henv.
Qed.

Lemma processField_env_fails (f : cfg) (env : gmap string string) (fld : field)
    (σ σ1 : gmap loc data) (e : error) :
  required fld && setDefault fld = false ->
  envStep f env fld σ = (σ1, inl e) ->
  processField f env fld σ = (σ1, inl e).
Proof.
  intros Hconf Henv. unfold processField. rewrite Hconf.
  unfold bind at 1. now rewrite Henv.
Qed.

(** What [processField] does once the environment step has gone through,
    by the tags of the field and by whether the value is then zero. *)
Lemma processField_steps (f : cfg) (env : gmap string string) (fld : field)
    (σ σ1 : gmap loc data) :
  required fld && setDefault fld = false ->
  envStep f env fld σ = (σ1, inr tt) ->
  processField f env fld σ
  = if isZero (typ (fieldV fld)) (load σ1 (fieldV fld))
    then if required fld then (σ1, inl ErrRequired)
         else if setDefault fld
              then wrapErr ErrWrapDefault
                     (at_value (fieldV fld)
                        (setDefaultValue f (typ (fieldV fld)) (defaultVal fld))) σ1
              else (σ1, inr tt)
    else (σ1, inr tt).
Proof.
  intros Hconf Henv. rewrite (processField_env_ok _ _ _ _ _ Hconf Henv).
  unfold requiredStep, defaultStep, isZeroAt, bind, gets, throw, ret.
  destruct (isZero _ _) eqn:Hz, (required fld), (setDefault fld);
    simpl in *; rewrite ?Hz; simpl; try discriminate; reflexivity.
Qed.

Lemma processFields_one (f : cfg) (env : gmap string string) (fld : field)
    (σ : gmap loc data) :
  processFields f env [fld] ∅ σ
  = match processField f env fld σ with
    | (σ', inl err) => (σ', {[fieldPath fld := err]})
    | (σ', inr _) => (σ', ∅)
    end.
Proof. simpl. now destruct processField as [σ' [err|[]]]. Qed.

(** C5. A field tagged both required and with a default makes
    [processField] return the configuration error at once: the store is
    left as it was, whatever the field holds and whatever the environment
    says, and [processCfg]'s loop files the error under the field's
    path. *)
Theorem required_and_default_conflict (f : cfg) (env : gmap string string)
    (fld : field) (σ : gmap loc data) :
  required fld = true -> setDefault fld = true ->
  processField f env fld σ = (σ, inl ErrRequiredAndDefault)
  /\ processFields f env [fld] ∅ σ
     = (σ, {[fieldPath fld := ErrRequiredAndDefault]}).
Proof.
  intros Hreq Hdef.
  assert (Hrun : processField f env fld σ = (σ, inl ErrRequiredAndDefault)).
  { unfold processField. now rewrite Hreq, Hdef. }
  split; [exact Hrun|]. now rewrite processFields_one, Hrun.
Qed.

Lemma envStep_error (f : cfg) (env : gmap string string) (fld : field)
    (σ σ1 : gmap loc data) (e : error) :
  envStep f env fld σ = (σ1, inl e) -> exists cause, e = ErrWrapEnv cause.
Proof.
  unfold envStep, wrapErr, ret. destruct (useEnv f); [|discriminate].
  destruct setFromEnv as [σ' [e'|[]]]; [|discriminate].
  intros [= _ <-]. eauto.
Qed.

(** C3. For a field tagged required and without a default, once the
    environment step has gone through (it is disabled, or the variable is
    not set, or its value was coerced into the field): if the field then
    holds the zero value of its type, [processField] fails with the
    required-validation error, filed under the field's path; if it holds
    anything else, [processField] succeeds.  The required-validation
    error is never returned for a field that holds a non-zero value. *)
Theorem required_validation (f : cfg) (env : gmap string string)
    (fld : field) (σ : gmap loc data) :
  required fld = true -> setDefault fld = false ->
  (forall σ1,
     envStep f env fld σ = (σ1, inr tt) ->
     isZero (typ (fieldV fld)) (load σ1 (fieldV fld)) = true ->
     processField f env fld σ = (σ1, inl ErrRequired)
     /\ processFields f env [fld] ∅ σ = (σ1, {[fieldPath fld := ErrRequired]}))
  /\ (forall σ1,
        envStep f env fld σ = (σ1, inr tt) ->
        isZero (typ (fieldV fld)) (load σ1 (fieldV fld)) = false ->
        processField f env fld σ = (σ1, inr tt)
        /\ processFields f env [fld] ∅ σ = (σ1, ∅))
  /\ (useEnv f = false \/ env !! formatEnvKey f (fieldPath fld) = None ->
        envStep f env fld σ = (σ, inr tt))
  /\ (forall σ1,
        processField f env fld σ = (σ1, inl ErrRequired) ->
        isZero (typ (fieldV fld)) (load σ1 (fieldV fld)) = true).
Proof.
  intros Hreq Hdef.
  assert (Hconf : required fld && setDefault fld = false) by now rewrite Hdef, andb_false_r.
  pose proof (fun σ1 => processField_steps f env fld σ σ1 Hconf) as Hrun.
  rewrite Hreq in Hrun.
  split; [|split; [|split]].
  - intros σ1 Henv Hz. rewrite processFields_one, (Hrun _ Henv), Hz. done.
  - intros σ1 Henv Hz. rewrite processFields_one, (Hrun _ Henv), Hz. done.
  - intros [Hoff|Hnone]; [now apply envStep_disabled|now apply envStep_absent].
  - intros σ1.
    destruct (envStep f env fld σ) as [σ' [e|[]]] eqn:Henv.
    + rewrite (processField_env_fails _ _ _ _ _ _ Hconf Henv).
      apply envStep_error in Henv as [cause ->]. discriminate.
    + rewrite (Hrun _ eq_refl).
      destruct (isZero _ (load σ' _)) eqn:Hz; [|discriminate].
      now intros [= <-].
Qed.

Lemma setDefaultValue_not_bool (f : cfg) (t : type) (val : string) :
  Kind t <> reflect.Bool -> setDefaultValue f t val = setValue f t val.
Proof. unfold setDefaultValue. now destruct (Kind t). Qed.

(** C4. For a field with a default literal and not tagged required, once
    the environment step has gone through: if the field holds a value
    that is not zero, [processField] succeeds and leaves the store exactly
    as it was; if the field holds the zero value, the default step is the
    coercion of the literal into the field, so that when the literal
    coerces (into a field that is not a boolean) the field holds the
    coerced literal afterwards. *)
Theorem default_application_frame (f : cfg) (env : gmap string string)
    (fld : field) (σ σ1 : gmap loc data) :
  setDefault fld = true -> required fld = false ->
  envStep f env fld σ = (σ1, inr tt) ->
  (isZero (typ (fieldV fld)) (load σ1 (fieldV fld)) = false ->
     processField f env fld σ = (σ1, inr tt))
  /\ (isZero (typ (fieldV fld)) (load σ1 (fieldV fld)) = true ->
        processField f env fld σ
        = wrapErr ErrWrapDefault
            (at_value (fieldV fld)
               (setDefaultValue f (typ (fieldV fld)) (defaultVal fld))) σ1)
  /\ (isZero (typ (fieldV fld)) (load σ1 (fieldV fld)) = true ->
        forall d',
          Kind (typ (fieldV fld)) <> reflect.Bool ->
          setValue f (typ (fieldV fld)) (defaultVal fld) (zero (typ (fieldV fld)))
          = (d', inr tt) ->
          processField f env fld σ = (<[ptr (fieldV fld) := d']> σ1, inr tt)
          /\ load (<[ptr (fieldV fld) := d']> σ1) (fieldV fld) = d').
Proof.
  intros Hdef Hreq Henv.
  assert (Hconf : required fld && setDefault fld = false) by now rewrite Hreq.
  pose proof (processField_steps _ _ _ _ _ Hconf Henv) as Hrun.
  rewrite Hreq, Hdef in Hrun.
  split; [|split]; intros Hz; rewrite Hz in Hrun; [done..|].
  intros d' Hk Hd. split; [|apply load_insert].
  rewrite Hrun. unfold wrapErr, at_value.
  rewrite (setDefaultValue_not_bool _ _ _ Hk).
  now rewrite (setValue_overwrites _ _ _ _ _ Hd).
Qed.

(** C1, as amended. With environment resolution enabled, for every field:
    - when no variable has the derived key, the environment step does
      nothing and is no error;
    - when the variable exists and its value coerces into the field, the
      coerced value replaces whatever the field held (from the file or
      set beforehand) and does not depend on it;
    - after the environment step (a field tagged both required and with
      a default never gets there), the default literal is applied only
      when the field is then still zero and carries a default.
    The precedence is environment, then file, then default among the
    values that are not zero: a value from the environment that is not
    zero is what the field ends up with, whatever the file and the
    default say; without a variable, a value from the file that is not
    zero stays.  A zero value counts as unset, wherever it comes from:
    when the value coerced from the environment is the zero value of the
    field's type, or when no variable is set and the field is zero, a
    field that carries a default is handed to the default step. *)
Theorem overlay_precedence (f : cfg) (env : gmap string string)
    (fld : field) (σ : gmap loc data) :
  useEnv f = true ->
  (env !! formatEnvKey f (fieldPath fld) = None ->
     envStep f env fld σ = (σ, inr tt))
  /\ (forall val d1,
        env !! formatEnvKey f (fieldPath fld) = Some val ->
        setValue f (typ (fieldV fld)) val (load σ (fieldV fld)) = (d1, inr tt) ->
        envStep f env fld σ = (<[ptr (fieldV fld) := d1]> σ, inr tt)
        /\ load (<[ptr (fieldV fld) := d1]> σ) (fieldV fld) = d1
        /\ (forall d0, setValue f (typ (fieldV fld)) val d0 = (d1, inr tt)))
  /\ (required fld && setDefault fld = false ->
      forall σ1,
        envStep f env fld σ = (σ1, inr tt) ->
        processField f env fld σ
        = if isZero (typ (fieldV fld)) (load σ1 (fieldV fld))
          then if required fld then (σ1, inl ErrRequired)
               else if setDefault fld
                    then wrapErr ErrWrapDefault
                           (at_value (fieldV fld)
                              (setDefaultValue f (typ (fieldV fld))
                                 (defaultVal fld))) σ1
                    else (σ1, inr tt)
          else (σ1, inr tt))
  /\ (required fld && setDefault fld = false ->
      forall val d1,
        env !! formatEnvKey f (fieldPath fld) = Some val ->
        setValue f (typ (fieldV fld)) val (load σ (fieldV fld)) = (d1, inr tt) ->
        isZero (typ (fieldV fld)) d1 = false ->
        processField f env fld σ = (<[ptr (fieldV fld) := d1]> σ, inr tt))
  /\ (required fld && setDefault fld = false ->
      env !! formatEnvKey f (fieldPath fld) = None ->
      isZero (typ (fieldV fld)) (load σ (fieldV fld)) = false ->
      processField f env fld σ = (σ, inr tt))
  /\ (required fld = false -> setDefault fld = true ->
      env !! formatEnvKey f (fieldPath fld) = None ->
      isZero (typ (fieldV fld)) (load σ (fieldV fld)) = true ->
      processField f env fld σ
      = wrapErr ErrWrapDefault
          (at_value (fieldV fld)
             (setDefaultValue f (typ (fieldV fld)) (defaultVal fld))) σ)
  /\ (required fld = false -> setDefault fld = true ->
      forall val d1,
        env !! formatEnvKey f (fieldPath fld) = Some val ->
        setValue f (typ (fieldV fld)) val (load σ (fieldV fld)) = (d1, inr tt) ->
        isZero (typ (fieldV fld)) d1 = true ->
        processField f env fld σ
        = wrapErr ErrWrapDefault
            (at_value (fieldV fld)
               (setDefaultValue f (typ (fieldV fld)) (defaultVal fld)))
            (<[ptr (fieldV fld) := d1]> σ)).
Proof.
  intros Hon.
  assert (Hpresent : forall val d1,
            env !! formatEnvKey f (fieldPath fld) = Some val ->
            setValue f (typ (fieldV fld)) val (load σ (fieldV fld)) = (d1, inr tt) ->
            envStep f env fld σ = (<[ptr (fieldV fld) := d1]> σ, inr tt)).
  { intros val d1 Hval Hd1.
    now rewrite (envStep_present _ _ _ _ _ Hon Hval), Hd1. }
  split; [apply envStep_absent|].
  split; [|split; [|split; [|split; [|split]]]].
  - intros val d1 Hval Hd1. split; [eauto|]. split; [apply load_insert|].
    eauto using setValue_overwrites.
  - intros Hconf σ1 Henv. now apply processField_steps.
  - intros Hconf val d1 Hval Hd1 Hz.
    rewrite (processField_steps _ _ _ _ _ Hconf (Hpresent _ _ Hval Hd1)).
    now rewrite load_insert, Hz.
  - intros Hconf Hnone Hz.
    rewrite (processField_steps _ _ _ _ _ Hconf (envStep_absent _ _ _ _ Hnone)).
    now rewrite Hz.
  - intros Hreq Hdef Hnone Hz.
    assert (Hconf : required fld && setDefault fld = false) by now rewrite Hreq.
    rewrite (processField_steps _ _ _ _ _ Hconf (envStep_absent _ _ _ _ Hnone)).
    now rewrite Hz, Hreq, Hdef.
  - intros Hreq Hdef val d1 Hval Hd1 Hz.
    assert (Hconf : required fld && setDefault fld = false) by now rewrite Hreq.
    rewrite (processField_steps _ _ _ _ _ Hconf (Hpresent _ _ Hval Hd1)).
    now rewrite load_insert, Hz, Hreq, Hdef.
Qed.

(** *** The loop of processCfg *)

Lemma storeBefore_cons (f : cfg) (env : gmap string string) (fld : field)
    (rest : list field) (i : nat) (σ : gmap loc data) :
  storeBefore f env (fld :: rest) (S i) σ
  = storeBefore f env rest i (processField f env fld σ).1.
Proof. reflexivity. Qed.

Lemma failure_first (f : cfg) (env : gmap string string) (fld : field)
    (rest : list field) (σ : gmap loc data) :
  failure f env (fld :: rest) 0 σ
  = match (processField f env fld σ).2 with
    | inl err => Some (fieldPath fld, err)
    | inr _ => None
    end.
Proof. reflexivity. Qed.

Lemma failure_next (f : cfg) (env : gmap string string) (fld : field)
    (rest : list field) (i : nat) (σ : gmap loc data) :
  failure f env (fld :: rest) (S i) σ
  = failure f env rest i (processField f env fld σ).1.
Proof. reflexivity. Qed.

(** Started with the map [errs0], the loop ends in the store reached by
    processing every field in turn, and with a map that holds under each
    path the error of the last field of that path that failed, or what
    [errs0] held when no field of that path failed. *)
Lemma processFields_spec (f : cfg) (env : gmap string string)
    (fields : list field) (errs0 : gmap string error) (σ : gmap loc data) :
  let out := processFields f env fields errs0 σ in
  out.1 = storeBefore f env fields (length fields) σ
  /\ forall p e,
       out.2 !! p = Some e <->
       (exists i, failure f env fields i σ = Some (p, e)
                  /\ forall j e', (i < j)%nat ->
                       failure f env fields j σ <> Some (p, e'))
       \/ (errs0 !! p = Some e
           /\ forall j e', failure f env fields j σ <> Some (p, e')).
Proof.
  revert errs0 σ. induction fields as [|fld rest IH]; intros errs0 σ out.
  - split; [reflexivity|]. intros p e. subst out. simpl. split.
    + intros Hp. right. split; [exact Hp|]. intros j e'. unfold failure.
      now rewrite lookup_nil.
    + intros [(i & Hi & _)|[Hp _]]; [|exact Hp].
      unfold failure in Hi. now rewrite lookup_nil in Hi.
  - subst out. simpl length. rewrite storeBefore_cons. simpl processFields.
    pose proof (failure_first f env fld rest σ) as H0.
    pose proof (fun i => failure_next f env fld rest i σ) as HS.
    destruct (processField f env fld σ) as [σ1 [err|[]]]; simpl in H0, HS |- *.
    + destruct (IH (<[fieldPath fld := err]> errs0) σ1) as [Hst Herr].
      split; [exact Hst|]. intros p e. rewrite Herr. clear Herr Hst IH. split.
      * intros [(i & Hi & Hlast)|[Hp Hnone]].
        -- left. exists (S i). rewrite HS. split; [exact Hi|].
           intros [|j] e' Hj; [lia|]. rewrite HS. apply Hlast. lia.
        -- destruct (decide (fieldPath fld = p)) as [<-|Hne].
           ++ rewrite lookup_insert_eq in Hp. injection Hp as <-.
              left. exists 0%nat. split; [exact H0|].
              intros [|j] e' Hj; [lia|]. rewrite HS. apply Hnone.
           ++ rewrite lookup_insert_ne in Hp by exact Hne.
              right. split; [exact Hp|].
              intros [|j] e'; [rewrite H0; congruence|].
              rewrite HS. apply Hnone.
      * intros [(i & Hi & Hlast)|[Hp Hnone]].
        -- destruct i as [|i].
           ++ rewrite H0 in Hi. injection Hi as <- <-.
              right. rewrite lookup_insert_eq. split; [reflexivity|].
              intros j e'. rewrite <- HS. apply Hlast. lia.
           ++ left. exists i. rewrite <- HS. split; [exact Hi|].
              intros j e' Hj. rewrite <- HS. apply Hlast. lia.
        -- right.
           assert (Hne : fieldPath fld <> p).
           { intros <-. apply (Hnone 0%nat err). exact H0. }
           rewrite lookup_insert_ne by exact Hne. split; [exact Hp|].
           intros j e'. rewrite <- HS. apply Hnone.
    + destruct (IH errs0 σ1) as [Hst Herr].
      split; [exact Hst|]. intros p e. rewrite Herr. clear Herr Hst IH. split.
      * intros [(i & Hi & Hlast)|[Hp Hnone]].
        -- left. exists (S i). rewrite HS. split; [exact Hi|].
           intros [|j] e' Hj; [lia|]. rewrite HS. apply Hlast. lia.
        -- right. split; [exact Hp|].
           intros [|j] e'; [rewrite H0; congruence|].
           rewrite HS. apply Hnone.
      * intros [(i & Hi & Hlast)|[Hp Hnone]].
        -- destruct i as [|i]; [rewrite H0 in Hi; discriminate|].
           left. exists i. rewrite <- HS. split; [exact Hi|].
           intros j e' Hj. rewrite <- HS. apply Hlast. lia.
        -- right. split; [exact Hp|].
           intros j e'. rewrite <- HS. apply Hnone.
Qed.

Lemma processFields_keys (f : cfg) (env : gmap string string)
    (fields : list field) (errs0 : gmap string error) (σ : gmap loc data) :
  let out := processFields f env fields errs0 σ in
  (forall p, is_Some (errs0 !! p) -> is_Some (out.2 !! p))
  /\ (forall i p e, failure f env fields i σ = Some (p, e) -> is_Some (out.2 !! p)).
Proof.
  revert errs0 σ. induction fields as [|fld rest IH]; intros errs0 σ out.
  - split; [auto|]. intros i p e. unfold failure. now rewrite lookup_nil.
  - subst out. simpl processFields.
    pose proof (failure_first f env fld rest σ) as H0.
    pose proof (fun i => failure_next f env fld rest i σ) as HS.
    destruct (processField f env fld σ) as [σ1 [err|[]]]; simpl in H0, HS |- *.
    + destruct (IH (<[fieldPath fld := err]> errs0) σ1) as [Hold Hnew].
      split.
      * intros p Hp. apply Hold, lookup_insert_is_Some'. now right.
      * intros [|i] p e Hi.
        -- rewrite H0 in Hi. injection Hi as <- <-.
           apply Hold, lookup_insert_is_Some'. now left.
        -- rewrite HS in Hi. eauto.
    + destruct (IH errs0 σ1) as [Hold Hnew]. split; [exact Hold|].
      intros [|i] p e Hi; [rewrite H0 in Hi; discriminate|].
      rewrite HS in Hi. eauto.
Qed.

(** C2. [processCfg] processes every field of the flattened list in
    turn, each in the store the ones before it left, whether or not they
    failed; the map it builds has a key for the path of every field that
    failed, holds under a path the error of a field of that path that
    failed (the last one, should two fields share a path), and has no
    other key; [processCfg] returns that map as its error when some field
    failed and [nil] when none did. *)
Theorem error_aggregation (f : cfg) (env : gmap string string) (c : Value)
    (σ σ0 σ' : gmap loc data) (fields : list field) (errs : gmap string error) :
  flattenCfg c (tag f) σ = (σ0, fields) ->
  processFields f env fields ∅ σ0 = (σ', errs) ->
  σ' = storeBefore f env fields (length fields) σ0
  /\ (forall i p e, failure f env fields i σ0 = Some (p, e) -> is_Some (errs !! p))
  /\ (forall p e,
        errs !! p = Some e <->
        exists i, failure f env fields i σ0 = Some (p, e)
                  /\ forall j e', (i < j)%nat ->
                       failure f env fields j σ0 <> Some (p, e'))
  /\ ((forall i, failure f env fields i σ0 = None) ->
        errs = ∅ /\ processCfg f env c σ = (σ', inr tt))
  /\ (forall i pe, failure f env fields i σ0 = Some pe ->
        processCfg f env c σ = (σ', inl (FieldErrors errs))).
Proof.
  intros Hflat Hrun.
  destruct (processFields_spec f env fields ∅ σ0) as [Hst Hlook].
  destruct (processFields_keys f env fields ∅ σ0) as [_ Hkeys].
  rewrite Hrun in Hst, Hlook, Hkeys. simpl in Hst, Hlook, Hkeys.
  assert (Hexact : forall p e,
            errs !! p = Some e <->
            exists i, failure f env fields i σ0 = Some (p, e)
                      /\ forall j e', (i < j)%nat ->
                           failure f env fields j σ0 <> Some (p, e')).
  { intros p e. rewrite Hlook. split; [|auto].
    intros [Hi|[Hp _]]; [exact Hi|]. now rewrite lookup_empty in Hp. }
  split; [exact Hst|]. split; [exact Hkeys|]. split; [exact Hexact|].
  unfold processCfg. rewrite Hflat, Hrun. split.
  - intros Hnone.
    assert (Hempty : errs = ∅).
    { apply map_empty. intros p. destruct (errs !! p) as [e|] eqn:Hp; [|done].
      apply Hexact in Hp as (i & Hi & _). now rewrite Hnone in Hi. }
    split; [exact Hempty|]. subst errs. now rewrite map_size_empty.
  - intros i [p e] Hi. apply Hkeys in Hi.
    apply map_size_ne_0_lookup_2 in Hi.
    destruct (size errs); [done|reflexivity].
Qed.

(** *** Load *)

(** C10. [Load] returns at once, with the store untouched and whatever
    the flattener, the decoders and the environment are: the usage error
    when the target is not a pointer to a struct; [ErrInvalidSources] when
    files are ignored and the environment is not used; [ErrFileNotFound]
    when no file was found, the environment is not used and files are not
    ignored.  Whenever one of the three conditions holds, [Load] fails
    with a fatal error and no field has been processed. *)
Theorem Load_usage_errors (f : cfg) (env : gmap string string) (c : Value)
    (σ : gmap loc data) :
  (isStructPtr c σ = false ->
     Load f env c σ = (σ, inl (Fatal ErrNotStructPtr)))
  /\ (isStructPtr c σ = true -> ignoreFile f = true -> useEnv f = false ->
        Load f env c σ = (σ, inl (Fatal ErrInvalidSources)))
  /\ (isStructPtr c σ = true -> ignoreFile f = false -> useEnv f = false ->
        findCfgFile f = [] ->
        Load f env c σ = (σ, inl (Fatal (ErrFileNotFound (filename f)))))
  /\ (isStructPtr c σ = false
      \/ (ignoreFile f = true /\ useEnv f = false)
      \/ (findCfgFile f = [] /\ useEnv f = false /\ ignoreFile f = false) ->
      exists e, Load f env c σ = (σ, inl (Fatal e))).
Proof.
  assert (H1 : isStructPtr c σ = false ->
               Load f env c σ = (σ, inl (Fatal ErrNotStructPtr))).
  { intros Hp. unfold Load, bind, gets. now rewrite Hp. }
  assert (H2 : isStructPtr c σ = true -> ignoreFile f = true -> useEnv f = false ->
               Load f env c σ = (σ, inl (Fatal ErrInvalidSources))).
  { intros Hp Hi Hu. unfold Load, bind, gets. now rewrite Hp, Hi, Hu. }
  assert (H3 : isStructPtr c σ = true -> ignoreFile f = false -> useEnv f = false ->
               findCfgFile f = [] ->
               Load f env c σ = (σ, inl (Fatal (ErrFileNotFound (filename f))))).
  { intros Hp Hi Hu Hf. unfold Load, bind, gets. now rewrite Hp, Hi, Hu, Hf. }
  repeat split; try assumption.
  intros [Hp|[[Hi Hu]|(Hf & Hu & Hi)]];
    destruct (isStructPtr c σ) eqn:Hp'; eauto; discriminate.
Qed.

(** ** More of the engine *)

(** *** What a coercion leaves behind *)

Section SetElemsConverse.

Variable set : string -> M error data unit.
Variable z : data.

Lemma setElems_ok_inv (pre : list data) (ss : list string) (slice : list data) :
  setElems set (length pre) ss (pre ++ replicate (length ss) z)%list
  = (slice, inr tt) ->
  exists ds, slice = (pre ++ ds)%list
             /\ Forall2 (fun s d => set s z = (d, inr tt)) ss ds.
Proof.
  revert pre. induction ss as [|s ss IH]; intros pre.
  - simpl. rewrite app_nil_r. intros [= <-]. exists [].
    rewrite app_nil_r. split; [reflexivity|constructor].
  - rewrite setElems_cons. destruct (set s z) as [d [e|[]]] eqn:Hs; [discriminate|].
    intros (ds & -> & Hds)%IH. exists (d :: ds).
    rewrite <- app_assoc. split; [reflexivity|]. now constructor.
Qed.

End SetElemsConverse.

(** X1. When [setSlice] succeeds the target is a slice that is not [nil],
    with exactly one element per token of the source string, each the
    coercion of its token into a fresh zero value: nothing of the old
    contents survives. *)
Theorem setSlice_success (f : cfg) (elem : type) (val : string) (sv sv' : data) :
  setSlice (setValue f elem) (zero elem) val sv = (sv', inr tt) ->
  exists ds,
    sv' = DSlice (Some ds)
    /\ length ds = length (stringSlice val)
    /\ Forall2 (fun s d => setValue f elem s (zero elem) = (d, inr tt))
         (stringSlice val) ds.
Proof.
  unfold setSlice.
  destruct (setElems _ 0 _ _) as [slice [e|[]]] eqn:Hrun; [discriminate|].
  intros [= <-].
  destruct (setElems_ok_inv _ _ [] _ _ Hrun) as (ds & -> & Hds).
  exists ds. split; [reflexivity|]. split; [|exact Hds].
  symmetry. exact (Forall2_length _ _ _ Hds).
Qed.

Lemma setValue_fail_allocated (f : cfg) (t : type) (val : string)
    (d d' : data) (e : error) :
  setValue f t val d = (d', inl e) -> d' = allocated t d.
Proof.
  revert d d' e.
  induction t as [k| | | |fields|elem IH|elem IH]; intros d d' e.
  - destruct k; simpl; unfold bind, try, put, throw;
      try (intros [= <-]; reflexivity);
      try (destruct strconv.ParseBool; intros [= <-]; reflexivity);
      try (destruct strconv.ParseInt; intros [= <-]; reflexivity);
      try (destruct strconv.ParseUint; intros [= <-]; reflexivity);
      try (destruct ParseFloat; intros [= <-]; reflexivity).
  - simpl. unfold bind, try, put. destruct ParseDuration; now intros [= <-].
  - simpl. unfold bind, try, put. destruct time_Parse; now intros [= <-].
  - simpl. unfold bind, try, put. destruct regexp_Compile; now intros [= <-].
  - simpl. unfold throw. now intros [= <-].
  - simpl. destruct (setValue f elem val _) as [p [e'|[]]] eqn:Hp;
      [|discriminate].
    intros [= <- _]. now rewrite (IH _ _ _ Hp).
  - rewrite setValue_Slice. unfold setSlice.
    destruct setElems as [sl [e'|[]]]; [|discriminate]. now intros [= <-].
Qed.

(** X2. A coercion that fails changes nothing but the [nil] pointers on
    the way to the pointee, which it has replaced by pointers to a zero
    value; a field that is no pointer is left exactly as it was. *)
Theorem setValue_failure_frame (f : cfg) (t : type) (val : string)
    (d d' : data) (e : error) :
  setValue f t val d = (d', inl e) ->
  d' = allocated t d /\ ((forall elem, t <> TPtr elem) -> d' = d).
Proof.
  intros Hd%setValue_fail_allocated.
  split; [exact Hd|]. intros Hnp. rewrite Hd.
  destruct t; try reflexivity. now destruct (Hnp t).
Qed.

Lemma SetInt_range (k : reflect.Kind) (i : Z) :
  - 2 ^ (Bits k - 1) <= SetInt k i < 2 ^ (Bits k - 1).
Proof.
  unfold SetInt.
  assert (Hw : 0 < Bits k) by (destruct k; reflexivity).
  assert (Hpow : 2 ^ Bits k = 2 * 2 ^ (Bits k - 1)).
  { rewrite <- Z.pow_succ_r by lia. f_equal. lia. }
  pose proof (Z.mod_pos_bound (i + 2 ^ (Bits k - 1)) (2 ^ Bits k)) as Hm.
  assert (0 < 2 ^ (Bits k - 1)) by (apply Z.pow_pos_nonneg; lia).
  lia.
Qed.

Lemma SetUint_range (k : reflect.Kind) (u : Z) : 0 <= SetUint k u < 2 ^ Bits k.
Proof.
  unfold SetUint. apply Z.mod_pos_bound.
  apply Z.pow_pos_nonneg; [lia|]. destruct k; discriminate.
Qed.

Lemma fits_signed (k : reflect.Kind) (i : Z) :
  k ∈ signedKinds -> fits (TBasic k) (DInt (SetInt k i)) = true.
Proof.
  intros Hk. pose proof (SetInt_range k i) as [Hlo Hhi]. simpl fits.
  rewrite bool_decide_true by exact Hk.
  apply Z.leb_le in Hlo. apply Z.ltb_lt in Hhi. now rewrite Hlo, Hhi.
Qed.

Lemma fits_unsigned (k : reflect.Kind) (u : Z) :
  k ∈ unsignedKinds -> fits (TBasic k) (DUint (SetUint k u)) = true.
Proof.
  intros Hk. pose proof (SetUint_range k u) as [Hlo Hhi]. simpl fits.
  rewrite bool_decide_true by exact Hk.
  apply Z.leb_le in Hlo. apply Z.ltb_lt in Hhi. now rewrite Hlo, Hhi.
Qed.

Lemma setValue_fits_basic (f : cfg) (k : reflect.Kind) (val : string) (d d' : data) :
  setValue f (TBasic k) val d = (d', inr tt) -> fits (TBasic k) d' = true.
Proof.
  destruct (decide (k ∈ signedKinds)) as [Hs|Hs].
  { rewrite (setValue_signed _ _ _ _ Hs).
    destruct strconv.ParseInt; [discriminate|]. intros [= <-].
    now apply fits_signed. }
  destruct (decide (k ∈ unsignedKinds)) as [Hu|Hu].
  { rewrite (setValue_unsigned _ _ _ _ Hu).
    destruct strconv.ParseUint; [discriminate|]. intros [= <-].
    now apply fits_unsigned. }
  destruct k; simpl; unfold bind, try, put, throw; try discriminate;
    try (exfalso; apply Hs; unfold signedKinds; repeat constructor; fail);
    try (exfalso; apply Hu; unfold unsignedKinds; repeat constructor; fail).
  - destruct strconv.ParseBool; [discriminate|]. now intros [= <-].
  - destruct ParseFloat; [discriminate|]. now intros [= <-].
  - destruct ParseFloat; [discriminate|]. now intros [= <-].
  - now intros [= <-].
Qed.

(** X3. What a successful coercion stores has the shape of the field's
    type, all the way down through pointers and slices, and every integer
    it stores lies within the width of its kind. *)
Theorem setValue_fits (f : cfg) (t : type) (val : string) (d d' : data) :
  setValue f t val d = (d', inr tt) -> fits t d' = true.
Proof.
  revert val d d'.
  induction t as [k| | | |fields|elem IH|elem IH]; intros val d d'.
  - apply setValue_fits_basic.
  - rewrite setValue_Duration. destruct ParseDuration; [discriminate|].
    now intros [= <-].
  - simpl. unfold bind, try, put. destruct time_Parse; [discriminate|].
    now intros [= <-].
  - simpl. unfold bind, try, put. destruct regexp_Compile; [discriminate|].
    now intros [= <-].
  - simpl. unfold throw. discriminate.
  - simpl. destruct (setValue f elem val _) as [p [e|[]]] eqn:Hp; [discriminate|].
    intros [= <-]. simpl. eauto.
  - rewrite setValue_Slice. unfold setSlice.
    destruct (setElems _ 0 _ _) as [slice [e|[]]] eqn:Hrun; [discriminate|].
    intros [= <-].
    destruct (setElems_ok_inv _ _ [] _ _ Hrun) as (ds & -> & Hds).
    simpl. clear Hrun. induction Hds as [|s x ss ds Hx _ IHds]; [reflexivity|].
    simpl. now rewrite (IH _ _ _ Hx), IHds.
Qed.

(** *** Kinds nothing coerces into, and the reach of the boolean guard *)

Lemma setValue_Ptr (f : cfg) (elem : type) (val : string) (d : data) :
  setValue f (TPtr elem) val d
  = let '(p, r) := setValue f elem val (match d with
                                        | DPtr (Some p) => p
                                        | _ => zero elem
                                        end) in
    (DPtr (Some p), r).
Proof. reflexivity. Qed.

Lemma unsupported_basic (t : type) :
  Kind t ∈ unsupportedKinds -> exists k, t = TBasic k /\ k ∈ unsupportedKinds.
Proof.
  destruct t; simpl; eauto; intros Hin; exfalso;
    apply (bool_decide_pack _) in Hin; vm_compute in Hin; exact Hin.
Qed.

(** X4. No string coerces into a field whose kind has no case in
    [setValue] (interface, map, array, channel, function, complex,
    [uintptr], unsafe pointer) or whose type is a struct other than
    [time.Time] and [regexp.Regexp]: the coercion fails with the
    unsupported-type error naming that kind, also when the field is a
    pointer, or a pointer to a pointer, to such a type; the field itself
    keeps its contents. *)
Theorem setValue_unsupported (f : cfg) (t : type) (n : nat) (val : string) (d : data) :
  Kind t ∈ unsupportedKinds \/ (exists fields, t = TStruct fields) ->
  exists d',
    setValue f (ptrTo n t) val d = (d', inl (ErrUnsupportedType (Kind t)))
    /\ (n = 0%nat -> d' = d).
Proof.
  intros Ht.
  assert (Hbase : forall d0,
            setValue f t val d0 = (d0, inl (ErrUnsupportedType (Kind t)))).
  { intros d0. destruct Ht as [Hk|[fields ->]]; [|reflexivity].
    apply unsupported_basic in Hk as (k & -> & Hk).
    unfold unsupportedKinds in Hk.
    repeat (apply elem_of_cons in Hk as [->|Hk]; [reflexivity|]).
    now apply elem_of_nil in Hk. }
  revert d. induction n as [|n IH]; intros d.
  - exists d. split; [apply Hbase|reflexivity].
  - change (ptrTo (S n) t) with (TPtr (ptrTo n t)). rewrite setValue_Ptr.
    destruct (IH (match d with DPtr (Some p) => p | _ => zero (ptrTo n t) end))
      as (p' & Hp & _).
    rewrite Hp. eexists. split; [reflexivity|discriminate].
Qed.

Lemma setValue_ptr_bool (f : cfg) (n : nat) (val : string) (b : bool) (d : data) :
  strconv.ParseBool val = inr b ->
  setValue f (ptrTo n (TBasic reflect.Bool)) val d = (ptrVal n (DBool b), inr tt).
Proof.
  intros Hb. revert d. induction n as [|n IH]; intros d.
  - simpl. unfold bind, try, put. now rewrite Hb.
  - change (ptrTo (S n) (TBasic reflect.Bool))
      with (TPtr (ptrTo n (TBasic reflect.Bool))).
    now rewrite setValue_Ptr, IH.
Qed.

(** X5. The guard of [setDefaultValue] looks at the kind of the field
    itself only: a field that is a pointer to a boolean, at any depth,
    takes a default, for every literal [strconv.ParseBool] accepts. *)
Theorem setDefaultValue_pointer_to_bool (f : cfg) (n : nat) (val : string)
    (b : bool) (d : data) :
  strconv.ParseBool val = inr b ->
  setDefaultValue f (ptrTo (S n) (TBasic reflect.Bool)) val d
  = (ptrVal (S n) (DBool b), inr tt).
Proof.
  intros Hb. unfold setDefaultValue.
  change (Kind (ptrTo (S n) (TBasic reflect.Bool))) with reflect.Ptr.
  now apply setValue_ptr_bool.
Qed.

(** *** processField and the store *)

Lemma at_value_frame {E A} (fv : Value) (m : M E data A) (σ : gmap loc data)
    (l : loc) :
  l <> ptr fv -> (at_value fv m σ).1 !! l = σ !! l.
Proof.
  intros Hl. unfold at_value. destruct (m _) as [d r]. simpl.
  now rewrite lookup_insert_ne.
Qed.

Lemma processField_frame (f : cfg) (env : gmap string string) (fld : field)
    (σ : gmap loc data) (l : loc) :
  l <> ptr (fieldV fld) -> (processField f env fld σ).1 !! l = σ !! l.
Proof.
  intros Hl.
  assert (Henv : (envStep f env fld σ).1 !! l = σ !! l).
  { unfold envStep, setFromEnv, wrapErr, ret.
    destruct (useEnv f); [|reflexivity].
    destruct (env !! _) as [val|]; [|reflexivity].
    pose proof (at_value_frame (fieldV fld)
                  (setValue f (typ (fieldV fld)) val) σ l Hl) as Hat.
    now destruct at_value as [σ' [e|[]]]. }
  unfold processField. destruct (required fld && setDefault fld); [reflexivity|].
  unfold bind at 1. destruct (envStep f env fld σ) as [σ1 [e|[]]]; [exact Henv|].
  simpl in Henv. rewrite <- Henv.
  unfold requiredStep, defaultStep, isZeroAt, bind, gets, throw, ret, wrapErr.
  destruct (required fld && _); [reflexivity|].
  destruct (setDefault fld && _); [|reflexivity].
  pose proof (at_value_frame (fieldV fld)
                (setDefaultValue f (typ (fieldV fld)) (defaultVal fld)) σ1 l Hl)
    as Hat.
  now destruct at_value as [σ' [e|[]]].
Qed.

Lemma processFields_untouched (f : cfg) (env : gmap string string)
    (fields : list field) (errs : gmap string error) (σ : gmap loc data)
    (l : loc) :
  l ∉ ((fun fld => ptr (fieldV fld)) <$> fields) ->
  (processFields f env fields errs σ).1 !! l = σ !! l.
Proof.
  revert errs σ. induction fields as [|fld rest IH]; intros errs σ Hl;
    [reflexivity|].
  rewrite fmap_cons in Hl. apply not_elem_of_cons in Hl as [Hfld Hrest].
  simpl. pose proof (processField_frame f env fld σ l Hfld) as Hone.
  destruct (processField f env fld σ) as [σ' [e|[]]]; simpl in Hone;
    rewrite <- Hone; now apply IH.
Qed.

(** X6. [processField] reads and writes the location of its own field
    only, and so does the whole loop of [processCfg]: a location that no
    field of the list addresses holds after the loop what it held
    before, whatever failed on the way. *)
Theorem processFields_frame (f : cfg) (env : gmap string string)
    (fields : list field) (errs : gmap string error) (σ : gmap loc data)
    (l : loc) :
  l ∉ ((fun fld => ptr (fieldV fld)) <$> fields) ->
  (processFields f env fields errs σ).1 !! l = σ !! l.
Proof. apply processFields_untouched. Qed.


(** X8. A list of fields without tags is left alone when the environment
    has nothing for them (it is not used, or none of their variables is
    set): the loop of [processCfg] changes neither the store nor the
    errors collected so far. *)
Theorem untagged_fields_untouched (f : cfg) (env : gmap string string)
    (fields : list field) (errs : gmap string error) (σ : gmap loc data) :
  Forall (fun fld =>
            required fld = false /\ setDefault fld = false
            /\ (useEnv f = false
                \/ env !! formatEnvKey f (fieldPath fld) = None)) fields ->
  processFields f env fields errs σ = (σ, errs).
Proof.
  induction 1 as [|fld rest (Hreq & Hdef & Henv) _ IH]; [reflexivity|].
  assert (Hstep : envStep f env fld σ = (σ, inr tt)).
  { destruct Henv; [now apply envStep_disabled|now apply envStep_absent]. }
  assert (Hconf : required fld && setDefault fld = false) by now rewrite Hreq.
  simpl. rewrite (processField_steps _ _ _ _ _ Hconf Hstep), Hreq, Hdef.
  now destruct (isZero _ _).
Qed.

(** *** Running processField again *)

Lemma setDefaultValue_overwrites (f : cfg) (t : type) (val : string) (d d' : data) :
  setDefaultValue f t val d = (d', inr tt) ->
  forall d0, setDefaultValue f t val d0 = (d', inr tt).
Proof.
  unfold setDefaultValue. destruct (Kind t); try discriminate;
    eauto using setValue_overwrites.
Qed.

(** What the required and default steps do, by the tags of the field and
    by whether its value is zero. *)
Lemma afterEnv_steps (f : cfg) (fld : field) (σ1 : gmap loc data) :
  required fld && setDefault fld = false ->
  (requiredStep fld ;;; defaultStep f fld) σ1
  = if isZero (typ (fieldV fld)) (load σ1 (fieldV fld))
    then if required fld then (σ1, inl ErrRequired)
         else if setDefault fld
              then wrapErr ErrWrapDefault
                     (at_value (fieldV fld)
                        (setDefaultValue f (typ (fieldV fld)) (defaultVal fld))) σ1
              else (σ1, inr tt)
    else (σ1, inr tt).
Proof.
  intros Hconf.
  unfold requiredStep, defaultStep, isZeroAt, bind, gets, throw, ret.
  destruct (isZero _ _) eqn:Hz, (required fld), (setDefault fld);
    simpl in *; rewrite ?Hz; simpl; try discriminate; reflexivity.
Qed.

Lemma afterEnv_store (f : cfg) (fld : field) (σa σ1 : gmap loc data)
    (r : error + unit) :
  required fld && setDefault fld = false ->
  (requiredStep fld ;;; defaultStep f fld) σa = (σ1, r) ->
  forall d, <[ptr (fieldV fld) := d]> σ1 = <[ptr (fieldV fld) := d]> σa.
Proof.
  intros Hconf. rewrite (afterEnv_steps _ _ _ Hconf).
  unfold wrapErr, at_value.
  destruct (isZero _ _); [|now intros [= <- _]].
  destruct (required fld); [now intros [= <- _]|].
  destruct (setDefault fld); [|now intros [= <- _]].
  destruct (setDefaultValue _ _ _ _) as [d2 [e|[]]]; intros [= <- _] d;
    apply insert_insert_eq.
Qed.

Lemma afterEnv_again (f : cfg) (fld : field) (σa σ1 : gmap loc data) :
  required fld && setDefault fld = false ->
  (requiredStep fld ;;; defaultStep f fld) σa = (σ1, inr tt) ->
  (requiredStep fld ;;; defaultStep f fld) σ1 = (σ1, inr tt).
Proof.
  intros Hconf. rewrite !(afterEnv_steps _ _ _ Hconf).
  destruct (isZero _ (load σa _)) eqn:Hza.
  - destruct (required fld) eqn:Hreq; [discriminate|].
    destruct (setDefault fld) eqn:Hdef.
    + unfold wrapErr, at_value.
      destruct (setDefaultValue _ _ _ (load σa _)) as [d2 [e|[]]] eqn:Hd2;
        [discriminate|].
      intros [= <-]. rewrite load_insert.
      destruct (isZero _ d2); [|reflexivity].
      rewrite (setDefaultValue_overwrites _ _ _ _ _ Hd2).
      now rewrite insert_insert_eq.
    + intros [= <-]. now rewrite Hza.
  - intros [= <-]. now rewrite Hza.
Qed.

(** X9. Field resolution can be run again: when [processField] has
    succeeded on a field, running it once more on the store it left, in
    the same environment, succeeds and leaves that store as it is. *)
Theorem processField_idempotent (f : cfg) (env : gmap string string)
    (fld : field) (σ σ1 : gmap loc data) :
  processField f env fld σ = (σ1, inr tt) ->
  processField f env fld σ1 = (σ1, inr tt).
Proof.
  intros Hrun.
  destruct (required fld && setDefault fld) eqn:Hconf.
  { unfold processField in Hrun. now rewrite Hconf in Hrun. }
  destruct (envStep f env fld σ) as [σa [e|[]]] eqn:Henv.
  { now rewrite (processField_env_fails _ _ _ _ _ _ Hconf Henv) in Hrun. }
  rewrite (processField_env_ok _ _ _ _ _ Hconf Henv) in Hrun.
  destruct (useEnv f) eqn:Hon;
    [destruct (env !! formatEnvKey f (fieldPath fld)) as [val|] eqn:Hval|].
  - rewrite (envStep_present _ _ _ _ _ Hon Hval) in Henv.
    destruct (setValue _ _ _ (load σ _)) as [d1 [e|[]]] eqn:Hd1;
      [discriminate|].
    injection Henv as <-.
    assert (Hagain : envStep f env fld σ1
                     = (<[ptr (fieldV fld) := d1]> σ, inr tt)).
    { rewrite (envStep_present _ _ _ _ _ Hon Hval).
      rewrite (setValue_overwrites _ _ _ _ _ Hd1).
      rewrite (afterEnv_store _ _ _ _ _ Hconf Hrun).
      now rewrite insert_insert_eq. }
    now rewrite (processField_env_ok _ _ _ _ _ Hconf Hagain).
  - rewrite (envStep_absent _ _ _ _ Hval) in Henv. injection Henv as <-.
    rewrite (processField_env_ok _ _ _ _ _ Hconf (envStep_absent _ _ _ _ Hval)).
    now apply afterEnv_again with (σa := σ).
  - rewrite (envStep_disabled _ _ _ _ Hon) in Henv. injection Henv as <-.
    rewrite (processField_env_ok _ _ _ _ _ Hconf (envStep_disabled _ _ _ _ Hon)).
    now apply afterEnv_again with (σa := σ).
Qed.

(** *** The errors processCfg returns *)

Lemma processFields_size (f : cfg) (env : gmap string string)
    (fields : list field) (errs0 : gmap string error) (σ : gmap loc data) :
  (size (processFields f env fields errs0 σ).2 <= size errs0 + length fields)%nat.
Proof.
  revert errs0 σ. induction fields as [|fld rest IH]; intros errs0 σ.
  - simpl. lia.
  - simpl. destruct (processField f env fld σ) as [σ' [e|[]]].
    + etrans; [apply IH|]. rewrite map_size_insert.
      destruct (errs0 !! fieldPath fld); simpl; lia.
    + etrans; [apply IH|]. lia.
Qed.

Lemma failure_field (f : cfg) (env : gmap string string) (fields : list field)
    (i : nat) (σ : gmap loc data) (p : string) (e : error) :
  failure f env fields i σ = Some (p, e) ->
  exists fld, fields !! i = Some fld /\ fieldPath fld = p.
Proof.
  unfold failure. destruct (fields !! i) as [fld|]; [|discriminate].
  destruct (processField _ _ _ _).2; [|discriminate]. intros [= <- _]. eauto.
Qed.

(** X10. An error of [processCfg] is always a map of field errors, never
    one of the fatal errors; the map is not empty, has at most one entry
    per flattened field, and each of its keys is the path of one of the
    flattened fields. *)
Theorem processCfg_error (f : cfg) (env : gmap string string) (c : Value)
    (σ σ' : gmap loc data) (err : loadError) :
  processCfg f env c σ = (σ', inl err) ->
  exists errs,
    err = FieldErrors errs
    /\ errs <> ∅
    /\ (size errs <= length (flattenCfg c (tag f) σ).2)%nat
    /\ forall p, is_Some (errs !! p) ->
         exists fld, fld ∈ (flattenCfg c (tag f) σ).2 /\ fieldPath fld = p.
Proof.
  unfold processCfg. destruct (flattenCfg c (tag f) σ) as [σ0 fields].
  pose proof (processFields_size f env fields ∅ σ0) as Hsize.
  destruct (processFields_spec f env fields ∅ σ0) as [_ Hlook].
  destruct (processFields f env fields ∅ σ0) as [σ1 errs].
  simpl in Hsize, Hlook |- *.
  destruct (0 <? size errs)%nat eqn:Hpos; [|discriminate].
  intros [= _ <-]. exists errs. split; [reflexivity|].
  apply Nat.ltb_lt in Hpos. split; [|split].
  - intros ->. rewrite map_size_empty in Hpos. lia.
  - rewrite map_size_empty in Hsize. exact Hsize.
  - intros p [e Hp]. apply Hlook in Hp as [(i & Hi & _)|[Hp _]].
    + apply failure_field in Hi as (fld & Hfld & Hpath).
      exists fld. split; [|exact Hpath]. eapply list_elem_of_lookup_2, Hfld.
    + now rewrite lookup_empty in Hp.
Qed.

(** *** Finding the files *)

Lemma findCfgFile_inner (dir : string) (names paths : list string) :
  foldl (fun paths name =>
           let path := filepath_Join dir name in
           if fileExists path then (paths ++ [path])%list else paths)
        paths names
  = (paths ++ List.filter fileExists (List.map (filepath_Join dir) names))%list.
Proof.
  revert paths. induction names as [|name names IH]; intros paths.
  - simpl. now rewrite app_nil_r.
  - simpl. rewrite IH. destruct (fileExists _); [|reflexivity].
    now rewrite <- app_assoc.
Qed.

Lemma findCfgFile_outer (names ds paths : list string) :
  foldl (fun paths dir =>
           foldl (fun paths name =>
                    let path := filepath_Join dir name in
                    if fileExists path then (paths ++ [path])%list else paths)
                 paths names)
        paths ds
  = (paths ++ List.flat_map
                (fun dir => List.filter fileExists
                              (List.map (filepath_Join dir) names)) ds)%list.
Proof.
  revert paths. induction ds as [|dir ds IH]; intros paths.
  - simpl. now rewrite app_nil_r.
  - simpl. rewrite findCfgFile_inner, IH. now rewrite <- app_assoc.
Qed.

Lemma findCfgFile_In (f : cfg) (path : string) :
  In path (findCfgFile f) <->
  exists dir name, In dir (dirs f) /\ In name (filename f)
                   /\ path = filepath_Join dir name /\ fileExists path = true.
Proof.
  unfold findCfgFile. rewrite findCfgFile_outer. simpl.
  rewrite in_flat_map. split.
  - intros (dir & Hdir & Hin). apply filter_In in Hin as [Hin Hex].
    apply in_map_iff in Hin as (name & <- & Hname). eauto 10.
  - intros (dir & name & Hdir & Hname & -> & Hex). exists dir.
    split; [exact Hdir|]. apply filter_In. split; [|exact Hex].
    apply in_map_iff. eauto.
Qed.

(** X11. [findCfgFile] returns the candidates that exist, all of them:
    every name of the list joined to every directory of the list, the
    directories in order and within a directory the names in order; a
    file found in an earlier directory does not stop the search of the
    later ones. *)
Theorem findCfgFile_all_candidates (f : cfg) :
  findCfgFile f
  = List.flat_map
      (fun dir => List.filter fileExists
                    (List.map (filepath_Join dir) (filename f))) (dirs f)
  /\ (forall path,
        In path (findCfgFile f) <->
        exists dir name, In dir (dirs f) /\ In name (filename f)
                         /\ path = filepath_Join dir name
                         /\ fileExists path = true).
Proof.
  split; [|apply findCfgFile_In].
  unfold findCfgFile. now rewrite findCfgFile_outer.
Qed.

(** *** Load and its sources *)

(** X12. Without the environment and without [IgnoreFile], [Load] on a
    pointer to a struct fails with [ErrFileNotFound], the store untouched,
    as soon as none of the candidate files exists. *)
Theorem Load_no_candidate (f : cfg) (env : gmap string string) (c : Value)
    (σ : gmap loc data) :
  isStructPtr c σ = true -> useEnv f = false -> ignoreFile f = false ->
  (forall dir name, In dir (dirs f) -> In name (filename f) ->
     fileExists (filepath_Join dir name) = false) ->
  Load f env c σ = (σ, inl (Fatal (ErrFileNotFound (filename f)))).
Proof.
  intros Hp Hu Hi Hnone.
  assert (Hempty : findCfgFile f = []).
  { destruct (findCfgFile f) as [|path rest] eqn:Hfind; [reflexivity|].
    assert (Hin : In path (findCfgFile f)) by (rewrite Hfind; now left).
    apply findCfgFile_In in Hin as (dir & name & Hdir & Hname & -> & Hex).
    rewrite (Hnone _ _ Hdir Hname) in Hex. discriminate. }
  unfold Load, bind, gets. now rewrite Hp, Hi, Hu, Hempty.
Qed.

(** X13. With the environment in use, [Load] on a pointer to a struct
    does not need a file: when files are ignored, whether or not any
    exists, or when none was found, [Load] is [processCfg], and no
    decoder is called. *)
Theorem Load_environment_only (f : cfg) (env : gmap string string) (c : Value)
    (σ : gmap loc data) :
  isStructPtr c σ = true -> useEnv f = true ->
  ignoreFile f = true \/ findCfgFile f = [] ->
  Load f env c σ = processCfg f env c σ.
Proof.
  intros Hp Hu Hsrc. unfold Load, bind, gets. rewrite Hp, Hu. simpl.
  rewrite !andb_false_r.
  destruct (ignoreFile f) eqn:Hi; simpl; [reflexivity|].
  destruct Hsrc as [|Hempty]; [discriminate|]. now rewrite Hempty.
Qed.

(** X14. The first file found that does not decode ends [Load]: the
    decoder's error comes back as a fatal error, no later file is read
    and no field is processed; the same holds when the file decodes but
    its contents do not decode into the target. *)
Theorem Load_decode_failure (f : cfg) (env : gmap string string) (c : Value)
    (σ : gmap loc data) (path : string) (rest : list string) :
  isStructPtr c σ = true -> ignoreFile f = false ->
  findCfgFile f = path :: rest ->
  (forall e, decodeFile f vals_empty path = inl e ->
     Load f env c σ = (σ, inl (Fatal e)))
  /\ (forall vals σ' e,
        decodeFile f vals_empty path = inr vals ->
        decodeMap f vals c σ = (σ', inl e) ->
        Load f env c σ = (σ', inl (Fatal e))).
Proof.
  intros Hp Hi Hfind. unfold Load, bind, gets. rewrite Hp, Hi, Hfind. simpl.
  split.
  - intros e He. unfold wrapErr, try, bind. now rewrite He.
  - intros vals σ' e Hv Hm. unfold wrapErr, try, bind. now rewrite Hv, Hm.
Qed.

(** *** Options *)

Lemma options_fold (opts : list optionSpec) (conf : cfg) :
  let conf' := foldl (fun conf opt => opt conf) conf (toOption <$> opts) in
  filename conf' = (filename conf ++ fileNames opts)%list
  /\ (useEnv conf' = true <-> useEnv conf = true \/ exists p, OptUseEnv p ∈ opts)
  /\ (ignoreFile conf' = true <-> ignoreFile conf = true \/ OptIgnoreFile ∈ opts)
  /\ (useStrict conf' = true <-> useStrict conf = true \/ OptUseStrict ∈ opts).
Proof.
  clear. revert conf. induction opts as [|o opts IH]; intros conf; cbv zeta.
  - simpl. rewrite app_nil_r.
    split; [reflexivity|]. setoid_rewrite elem_of_nil. naive_solver.
  - rewrite fmap_cons. cbn [foldl].
    destruct (IH (toOption o conf)) as (Hf & He & Hi & Hs).
    cbv zeta in Hf, He, Hi, Hs.
    rewrite Hf, He, Hi, Hs. clear Hf He Hi Hs IH.
    setoid_rewrite elem_of_cons.
    split; [|destruct o; simpl; naive_solver].
    destruct o; simpl; try reflexivity.
    unfold fileNames. simpl. now rewrite <- app_assoc.
Qed.

(** X15. Whatever options are passed, in whatever order: the files looked
    for are the two default names followed by the names of the [File]
    options in the order given, so [File] adds a candidate and never
    replaces the defaults; the environment is used exactly when a
    [UseEnv] is among the options, files are ignored exactly when an
    [IgnoreFile] is, and strict decoding is on exactly when a [UseStrict]
    is: no option switches any of them off again. *)
Theorem options_accumulate (opts : list optionSpec) :
  let conf := applyOptions (toOption <$> opts) in
  filename conf = ("config.yaml" :: "secret.yaml" :: fileNames opts)
  /\ (useEnv conf = true <-> exists p, OptUseEnv p ∈ opts)
  /\ (ignoreFile conf = true <-> OptIgnoreFile ∈ opts)
  /\ (useStrict conf = true <-> OptUseStrict ∈ opts).
Proof.
  destruct (options_fold opts defaultCfg) as (Hf & He & Hi & Hs).
  unfold applyOptions. simpl in *.
  split; [exact Hf|]. split; [|split].
  - rewrite He. split; [intros [?|?]; [discriminate|assumption]|auto].
  - rewrite Hi. split; [intros [?|?]; [discriminate|assumption]|auto].
  - rewrite Hs. split; [intros [?|?]; [discriminate|assumption]|auto].
Qed.

(** X16. [Load] called with [IgnoreFile] among its options and no
    [UseEnv] has no source left: on a pointer to a struct it fails with
    [ErrInvalidSources] and touches nothing, whatever the other options,
    the files present and the environment. *)
Theorem LoadOptions_no_source (opts : list optionSpec) (env : gmap string string)
    (c : Value) (σ : gmap loc data) :
  OptIgnoreFile ∈ opts -> (forall p, OptUseEnv p ∉ opts) ->
  isStructPtr c σ = true ->
  LoadOptions (toOption <$> opts) env c σ = (σ, inl (Fatal ErrInvalidSources)).
Proof.
  intros Hi Hu Hp.
  destruct (options_fold opts defaultCfg) as (_ & He & Hig & _).
  unfold LoadOptions, Load, bind, gets. rewrite Hp. simpl.
  destruct (ignoreFile _).
  - destruct (useEnv _); [|reflexivity].
    destruct (proj1 He eq_refl) as [Huse|[p Huse]]; [discriminate|].
    now destruct (Hu p).
  - assert (Hyes : false = true) by (apply Hig; now right). discriminate.
Qed.

(** *** More on environment keys *)

Lemma append_assoc (a b c : string) : (a +:+ b) +:+ c = a +:+ (b +:+ c).
Proof.
  induction a as [|x a IH]; [reflexivity|].
  change (String x ((a +:+ b) +:+ c) = String x (a +:+ (b +:+ c))).
  now rewrite IH.
Qed.

Lemma envKeyPath_app (a b : string) :
  envKeyPath (a +:+ b) = envKeyPath a +:+ envKeyPath b.
Proof.
  induction a as [|x a IH]; [reflexivity|]. simpl.
  now rewrite IH, append_assoc.
Qed.

Lemma formatEnvKey_envKeyPath (f : cfg) (k1 k2 : string) :
  envKeyPath k1 = envKeyPath k2 -> formatEnvKey f k1 = formatEnvKey f k2.
Proof.
  intros Heq. unfold formatEnvKey. now rewrite !Replace_envKeyPath, Heq.
Qed.

(** X17. The separators of a path are not told apart in the key: a [.],
    a [[] and a [_] at the same place give the same environment
    variable, and a []] leaves no trace, so that the paths [a.b], [a_b]
    and [a[b]] all read the variable [A_B]. *)
Theorem envKey_separators_collide (f : cfg) (a b : string) :
  formatEnvKey f (a +:+ "." +:+ b) = formatEnvKey f (a +:+ "_" +:+ b)
  /\ formatEnvKey f (a +:+ "[" +:+ b) = formatEnvKey f (a +:+ "_" +:+ b)
  /\ formatEnvKey f (a +:+ "]" +:+ b) = formatEnvKey f (a +:+ b).
Proof.
  repeat split; apply formatEnvKey_envKeyPath; now rewrite !envKeyPath_app.
Qed.

Lemma mapBytes_app (g : ascii -> ascii) (a b : string) :
  strings.mapBytes g (a +:+ b) = strings.mapBytes g a +:+ strings.mapBytes g b.
Proof. induction a as [|x a IH]; [reflexivity|]. simpl. now rewrite IH. Qed.

Lemma envKeyByte_upper (c : ascii) :
  strings.mapBytes Byte.upper (envKeyByte c) = envKeyByte (Byte.upper c).
Proof. destruct c as [[] [] [] [] [] [] [] []]; reflexivity. Qed.

Lemma envKeyPath_upper (k : string) :
  strings.mapBytes Byte.upper (envKeyPath k)
  = envKeyPath (strings.mapBytes Byte.upper k).
Proof.
  induction k as [|c k IH]; [reflexivity|]. simpl.
  now rewrite mapBytes_app, envKeyByte_upper, IH.
Qed.

Lemma ToUpper_ascii (s : string) :
  strings.isASCII s = true ->
  strings.ToUpper unicode_ToUpper s = strings.mapBytes Byte.upper s.
Proof. intros Hs. unfold strings.ToUpper. now rewrite Hs. Qed.

(** The key of an ASCII prefix and path, from their upper-case forms. *)
Lemma formatEnvKey_ascii (f : cfg) (key : string) :
  strings.isASCII (envPrefix f +:+ key) = true ->
  formatEnvKey f key
  = match strings.ToUpper unicode_ToUpper (envPrefix f) with
    | EmptyString => envKeyPath (strings.ToUpper unicode_ToUpper key)
    | P => P +:+ "_" +:+ envKeyPath (strings.ToUpper unicode_ToUpper key)
    end.
Proof.
  intros Hascii. rewrite isASCII_app in Hascii.
  apply andb_prop in Hascii as [Hp Hk].
  rewrite (ToUpper_ascii _ Hp), (ToUpper_ascii _ Hk).
  unfold formatEnvKey. rewrite Replace_envKeyPath.
  destruct (envPrefix f) as [|c p] eqn:Hprefix.
  - simpl. rewrite ToUpper_ascii by now apply isASCII_envKeyPath.
    apply envKeyPath_upper.
  - rewrite bool_decide_true by discriminate.
    rewrite ToUpper_ascii.
    + rewrite !mapBytes_app, envKeyPath_upper. reflexivity.
    + rewrite !isASCII_app, Hp. simpl. now apply isASCII_envKeyPath.
Qed.

(** X18. The case of ASCII letters plays no part in the key: two prefixes
    and two paths that become equal once upper-cased give the same
    environment variable, so [UseEnv("myapp")] and [UseEnv("MYAPP")] read
    the same variables. *)
Theorem envKey_ignores_case (f f' : cfg) (key key' : string) :
  strings.isASCII (envPrefix f +:+ key) = true ->
  strings.isASCII (envPrefix f' +:+ key') = true ->
  strings.ToUpper unicode_ToUpper (envPrefix f)
  = strings.ToUpper unicode_ToUpper (envPrefix f') ->
  strings.ToUpper unicode_ToUpper key = strings.ToUpper unicode_ToUpper key' ->
  formatEnvKey f key = formatEnvKey f' key'.
Proof.
  intros Ha Ha' Hp Hk.
  now rewrite (formatEnvKey_ascii _ _ Ha), (formatEnvKey_ascii _ _ Ha'), Hp, Hk.
Qed.

(** *** What a successful processCfg guarantees *)

Lemma processField_required_set (f : cfg) (env : gmap string string)
    (fld : field) (σ σ1 : gmap loc data) :
  processField f env fld σ = (σ1, inr tt) -> required fld = true ->
  isZero (typ (fieldV fld)) (load σ1 (fieldV fld)) = false.
Proof.
  intros Hrun Hreq.
  destruct (required fld && setDefault fld) eqn:Hconf.
  { unfold processField in Hrun. now rewrite Hconf in Hrun. }
  destruct (envStep f env fld σ) as [σa [e|[]]] eqn:Henv.
  { now rewrite (processField_env_fails _ _ _ _ _ _ Hconf Henv) in Hrun. }
  rewrite (processField_steps _ _ _ _ _ Hconf Henv), Hreq in Hrun.
  destruct (isZero _ (load σa _)) eqn:Hz; [discriminate|].
  now injection Hrun as <-.
Qed.

Lemma load_untouched (fields : list field) (f : cfg) (env : gmap string string)
    (errs : gmap string error) (σ : gmap loc data) (fv : Value) :
  ptr fv ∉ ((fun fld => ptr (fieldV fld)) <$> fields) ->
  load (processFields f env fields errs σ).1 fv = load σ fv.
Proof.
  intros Hl. unfold load. now rewrite processFields_untouched.
Qed.

Lemma processFields_required_set (f : cfg) (env : gmap string string)
    (fields : list field) (errs : gmap string error) (σ : gmap loc data) :
  NoDup ((fun fld => ptr (fieldV fld)) <$> fields) ->
  (forall i, failure f env fields i σ = None) ->
  forall fld, fld ∈ fields -> required fld = true ->
    isZero (typ (fieldV fld))
      (load (processFields f env fields errs σ).1 (fieldV fld)) = false.
Proof.
  revert errs σ. induction fields as [|fld0 rest IH]; intros errs σ Hnd Hok fld Hin Hreq.
  { now apply elem_of_nil in Hin. }
  rewrite fmap_cons in Hnd. apply NoDup_cons in Hnd as [Hfresh Hnd].
  pose proof (Hok 0%nat) as H0. rewrite failure_first in H0.
  pose proof (fun i => Hok (S i)) as HS.
  simpl processFields.
  destruct (processField f env fld0 σ) as [σ1 [e|[]]] eqn:Hrun;
    simpl in H0; [discriminate|].
  assert (Hrest : forall i, failure f env rest i σ1 = None).
  { intros i. specialize (HS i). rewrite failure_next, Hrun in HS. exact HS. }
  apply elem_of_cons in Hin as [->|Hin].
  - rewrite load_untouched by exact Hfresh.
    now apply (processField_required_set _ _ _ _ _ Hrun).
  - now apply IH.
Qed.

(** X21. When [processCfg] returns [nil] and the flattened fields address
    distinct locations, every field tagged required holds, in the store
    [processCfg] leaves, a value that is not the zero value of its
    type. *)
Theorem processCfg_required_set (f : cfg) (env : gmap string string) (c : Value)
    (σ σ' : gmap loc data) :
  processCfg f env c σ = (σ', inr tt) ->
  NoDup ((fun fld => ptr (fieldV fld)) <$> (flattenCfg c (tag f) σ).2) ->
  forall fld, fld ∈ (flattenCfg c (tag f) σ).2 -> required fld = true ->
    isZero (typ (fieldV fld)) (load σ' (fieldV fld)) = false.
Proof.
  unfold processCfg. destruct (flattenCfg c (tag f) σ) as [σ0 fields]. simpl.
  destruct (processFields_keys f env fields ∅ σ0) as [_ Hkeys].
  pose proof (processFields_required_set f env fields ∅ σ0) as Hset.
  destruct (processFields f env fields ∅ σ0) as [σ1 errs]. simpl in *.
  destruct (0 <? size errs)%nat eqn:Hpos; [discriminate|].
  intros [= <-] Hnd. apply Hset; [exact Hnd|].
  intros i. destruct (failure f env fields i σ0) as [[p e]|] eqn:Hi; [|reflexivity].
  apply Hkeys in Hi. apply map_size_ne_0_lookup_2 in Hi.
  apply Nat.ltb_ge in Hpos. lia.
Qed.

End Engine.

(** ** decodeFile *)

Section Decoding.

Context `{Decoders}.

Lemma reverse_onto_spec (acc s : string) :
  strings.reverse_onto acc s = strings.reverse s +:+ acc.
Proof.
  unfold strings.reverse. revert acc.
  induction s as [|c s IH]; intros acc; [reflexivity|].
  simpl. rewrite IH, (IH (String c EmptyString)).
  now rewrite append_assoc.
Qed.

Lemma append_empty_r (s : string) : s +:+ "" = s.
Proof.
  induction s as [|c s IH]; [reflexivity|].
  change (String c (s +:+ "") = String c s). now rewrite IH.
Qed.

Lemma reverse_app (a b : string) :
  strings.reverse (a +:+ b) = strings.reverse b +:+ strings.reverse a.
Proof.
  induction a as [|c a IH].
  - simpl. now rewrite append_empty_r.
  - change (strings.reverse (String c (a +:+ b))
            = strings.reverse b +:+ strings.reverse (String c a)).
    unfold strings.reverse at 1 3. simpl.
    rewrite !reverse_onto_spec, IH. now rewrite append_assoc.
Qed.

(** Bytes before the last separator play no part in the extension. *)
Lemma extFrom_separator (acc r1 r2 : string) :
  Decode.extFrom acc (r1 +:+ String "/" r2) = Decode.extFrom acc r1.
Proof.
  revert acc. induction r1 as [|c r1 IH]; intros acc; [reflexivity|].
  simpl. repeat case_bool_decide; auto.
Qed.

Lemma extFrom_no_dot (acc r : string) :
  ~ In "."%char (list_ascii_of_string r) -> Decode.extFrom acc r = "".
Proof.
  revert acc. induction r as [|c r IH]; intros acc Hdot; [reflexivity|].
  simpl in *. repeat case_bool_decide; subst; auto.
  exfalso. apply Hdot. now left.
Qed.

Lemma In_reverse (c : ascii) (s : string) :
  In c (list_ascii_of_string (strings.reverse s)) -> In c (list_ascii_of_string s).
Proof.
  assert (Hgen : forall acc,
            In c (list_ascii_of_string (strings.reverse_onto acc s)) ->
            In c (list_ascii_of_string acc) \/ In c (list_ascii_of_string s)).
  { induction s as [|x s IH]; intros acc; simpl; [auto|].
    intros [[->|Hacc]|Hs]%IH; auto. }
  intros [[]|Hs]%Hgen. exact Hs.
Qed.

Lemma Ext_file_name (dir name : string) :
  Decode.Ext (dir +:+ "/" +:+ name) = Decode.Ext name.
Proof.
  unfold Decode.Ext. rewrite reverse_app.
  change ("/" +:+ name) with (String "/" name).
  unfold strings.reverse at 1. simpl.
  rewrite reverse_onto_spec. rewrite append_assoc.
  apply extFrom_separator.
Qed.

(** X19. [decodeFile] fails before it decodes anything in two cases: a
    file that cannot be opened gives the error of [os.Open], whatever its
    extension; a file that opens but whose name has no dot has no
    extension, dots in the names of its directories not counting, and is
    refused as an unsupported file extension. *)
Theorem decodeFile_refuses (vals : gmap string Decoded) (dir name : string) :
  (forall file e,
     os_Open file = inl e -> Decode.decodeFile vals file = inl (Decode.Library e))
  /\ (forall fd,
        os_Open (dir +:+ "/" +:+ name) = inr fd ->
        ~ In "."%char (list_ascii_of_string name) ->
        Decode.decodeFile vals (dir +:+ "/" +:+ name)
        = inl Decode.UnsupportedExtension).
Proof.
  split.
  - intros file e He. unfold Decode.decodeFile. now rewrite He.
  - intros fd Hfd Hdot. unfold Decode.decodeFile. rewrite Hfd, Ext_file_name.
    unfold Decode.Ext. rewrite extFrom_no_dot; [reflexivity|].
    intros Hin. now apply Hdot, In_reverse.
Qed.

Lemma assignAll_lookup (tree vals : gmap string Decoded) (k : string) :
  Decode.assignAll tree vals !! k
  = match tree !! k with
    | Some v => Some v
    | None => vals !! k
    end.
Proof.
  unfold Decode.assignAll. revert k.
  apply (map_fold_weak_ind
           (fun r m => forall k, r !! k = match m !! k with
                                          | Some v => Some v
                                          | None => vals !! k
                                          end)).
  - intros k. now rewrite lookup_empty.
  - intros i x m r Hi IH k. destruct (decide (i = k)) as [->|Hne].
    + now rewrite !lookup_insert_eq.
    + rewrite !lookup_insert_ne by exact Hne. apply IH.
Qed.

(** X20. Decoding a [.toml] file into values read before replaces the
    top-level keys the file has and keeps every other: under a key of the
    file the result holds the file's value, under any other key what was
    there. *)
Theorem decodeFile_toml_merges (vals tree : gmap string Decoded) (file : string)
    (fd : Handle) :
  os_Open file = inr fd -> Decode.Ext file = ".toml" ->
  toml_LoadReader fd = inr tree ->
  exists merged,
    Decode.decodeFile vals file = inr merged
    /\ forall k, merged !! k = match tree !! k with
                               | Some v => Some v
                               | None => vals !! k
                               end.
Proof.
  intros Hfd Hext Htree. unfold Decode.decodeFile.
  rewrite Hfd, Hext, Htree. simpl.
  eexists. split; [reflexivity|]. apply assignAll_lookup.
Qed.

End Decoding.

(** ** The theorems at work on the fields of the package's tests *)

#[local] Existing Instance Demo.runtime.

Lemma overlay_precedence_witness :
  useEnv Demo.confEnv = true
  /\ Demo.environ !! formatEnvKey Demo.confEnv (fieldPath Demo.fieldX) = Some "MEN"
  /\ processField Demo.isZero Demo.stringSlice Demo.confEnv Demo.environ
       Demo.fieldX {[ 1%nat := DString "BOYS" ]}
     = (<[ 1%nat := DString "MEN" ]> {[ 1%nat := DString "BOYS" ]}, inr tt).
Proof.
  split; [reflexivity|]. split; [reflexivity|].
  destruct (overlay_precedence Demo.isZero Demo.stringSlice Demo.confEnv
              Demo.environ Demo.fieldX {[ 1%nat := DString "BOYS" ]}
              eq_refl) as (_ & _ & _ & Hwins & _).
  exact (Hwins eq_refl "MEN" (DString "MEN") eq_refl eq_refl eq_refl).
Defined.

(** The variable [FIG_Y] is set to ["0"], the file has left 7 in the field
    and the field carries [default:"10"]: the environment value coerces,
    to 0, and the field ends up holding the default, 10, not the value of
    the environment. *)
Lemma overlay_precedence_counterexample :
  let fld := {| fieldV := {| typ := TBasic reflect.Int; ptr := 0%nat |};
                fieldPath := "y"; required := false; setDefault := true;
                defaultVal := "10" |} in
  let env : gmap string string := {[ "FIG_Y" := "0" ]} in
  let σ : gmap loc data := {[ 0%nat := DInt 7 ]} in
  let run := processField Demo.isZero Demo.stringSlice Demo.confEnv env fld σ in
  useEnv Demo.confEnv = true
  /\ env !! formatEnvKey Demo.confEnv (fieldPath fld) = Some "0"
  /\ setValue Demo.stringSlice Demo.confEnv (typ (fieldV fld)) "0"
       (load σ (fieldV fld)) = (DInt 0, inr tt)
  /\ run.2 = inr tt
  /\ load run.1 (fieldV fld) = DInt 10
  /\ ~ (load run.1 (fieldV fld) = DInt 0).
Proof.
  intros fld env σ run.
  split; [reflexivity|]. split; [reflexivity|]. split; [reflexivity|].
  split; [reflexivity|]. split; [reflexivity|].
  intros Hload. change (DInt 10 = DInt 0) in Hload. discriminate Hload.
Qed.

Lemma error_aggregation_witness :
  let fields := [Demo.fieldRequired; Demo.fieldX; Demo.fieldPorts; Demo.fieldKeys] in
  let σ' : gmap loc data := {[ 1%nat := DString "GIRLS"; 2%nat := DSlice None ]} in
  let errs : gmap string error :=
    {[ "y" := ErrRequired;
       "ports" := ErrWrapDefault (ErrSyntax "ParseInt" "not-a-port");
       "Logger.Metadata.keys" := ErrRequired ]} in
  Demo.flattenTo fields Demo.target (tag defaultCfg) ∅ = (∅, fields)
  /\ processFields Demo.isZero Demo.stringSlice defaultCfg ∅ fields ∅ ∅ = (σ', errs)
  /\ processCfg Demo.isZero Demo.stringSlice (Demo.flattenTo fields)
       defaultCfg ∅ Demo.target ∅
     = (σ', inl (FieldErrors errs)).
Proof.
  intros fields σ' errs.
  assert (Hrun : processFields Demo.isZero Demo.stringSlice defaultCfg ∅
                   fields ∅ ∅ = (σ', errs)) by reflexivity.
  split; [reflexivity|]. split; [exact Hrun|].
  destruct (error_aggregation Demo.isZero Demo.stringSlice
              (Demo.flattenTo fields) defaultCfg ∅ Demo.target
              ∅ ∅ σ' fields errs eq_refl Hrun) as (_ & _ & _ & _ & Hfail).
  exact (Hfail 0%nat ("y", ErrRequired) eq_refl).
Defined.

Lemma required_validation_witness :
  required Demo.fieldRequired = true
  /\ setDefault Demo.fieldRequired = false
  /\ envStep Demo.stringSlice defaultCfg ∅ Demo.fieldRequired ∅ = (∅, inr tt)
  /\ processField Demo.isZero Demo.stringSlice defaultCfg ∅ Demo.fieldRequired ∅
     = (∅, inl ErrRequired)
  /\ processField Demo.isZero Demo.stringSlice defaultCfg ∅ Demo.fieldRequired
       {[ 0%nat := DInt 10 ]}
     = ({[ 0%nat := DInt 10 ]}, inr tt).
Proof.
  split; [reflexivity|]. split; [reflexivity|]. split; [reflexivity|]. split.
  - destruct (required_validation Demo.isZero Demo.stringSlice defaultCfg ∅
                Demo.fieldRequired ∅ eq_refl eq_refl) as (Hzero & _).
    exact (proj1 (Hzero ∅ eq_refl eq_refl)).
  - destruct (required_validation Demo.isZero Demo.stringSlice defaultCfg ∅
                Demo.fieldRequired {[ 0%nat := DInt 10 ]} eq_refl eq_refl)
      as (_ & Hset & _).
    exact (proj1 (Hset {[ 0%nat := DInt 10 ]} eq_refl eq_refl)).
Defined.

Lemma default_application_frame_witness :
  setDefault Demo.fieldDefault = true
  /\ required Demo.fieldDefault = false
  /\ envStep Demo.stringSlice defaultCfg ∅ Demo.fieldDefault {[ 0%nat := DInt 5 ]}
     = ({[ 0%nat := DInt 5 ]}, inr tt)
  /\ processField Demo.isZero Demo.stringSlice defaultCfg ∅ Demo.fieldDefault
       {[ 0%nat := DInt 5 ]}
     = ({[ 0%nat := DInt 5 ]}, inr tt)
  /\ processField Demo.isZero Demo.stringSlice defaultCfg ∅ Demo.fieldDefault ∅
     = ({[ 0%nat := DInt 10 ]}, inr tt).
Proof.
  split; [reflexivity|]. split; [reflexivity|]. split; [reflexivity|]. split.
  - exact (proj1 (default_application_frame Demo.isZero Demo.stringSlice
                    defaultCfg ∅ Demo.fieldDefault
                    {[ 0%nat := DInt 5 ]} {[ 0%nat := DInt 5 ]}
                    eq_refl eq_refl eq_refl) eq_refl).
  - destruct (default_application_frame Demo.isZero Demo.stringSlice
                defaultCfg ∅ Demo.fieldDefault ∅ ∅
                eq_refl eq_refl eq_refl) as (_ & _ & Hzero).
    refine (proj1 (Hzero eq_refl (DInt 10) _ eq_refl)). discriminate.
Defined.

Lemma required_and_default_conflict_witness :
  required Demo.fieldBoth = true /\ setDefault Demo.fieldBoth = true
  /\ processField Demo.isZero Demo.stringSlice defaultCfg ∅ Demo.fieldBoth
       {[ 0%nat := DInt 7 ]}
     = ({[ 0%nat := DInt 7 ]}, inl ErrRequiredAndDefault).
Proof.
  split; [reflexivity|]. split; [reflexivity|].
  exact (proj1 (required_and_default_conflict Demo.isZero Demo.stringSlice
                  defaultCfg ∅ Demo.fieldBoth {[ 0%nat := DInt 7 ]}
                  eq_refl eq_refl)).
Defined.

Lemma formatEnvKey_correct_witness :
  envPrefix (UseEnv "myapp" defaultCfg) = "myapp"
  /\ formatEnvKey (UseEnv "myapp" defaultCfg) "loggers[0].log_level"
     = "MYAPP_LOGGERS_0_LOG_LEVEL".
Proof.
  split; [reflexivity|].
  destruct (formatEnvKey_correct (UseEnv "myapp" defaultCfg) "server.host")
    as (_ & _ & _ & Hprefix).
  exact (Hprefix eq_refl).
Defined.

Lemma boolean_default_exemption_witness :
  Kind (TBasic reflect.Bool) = reflect.Bool
  /\ setDefaultValue Demo.stringSlice defaultCfg (TBasic reflect.Bool) "true"
       (DBool false)
     = (DBool false, inl (ErrUnsupportedType reflect.Bool))
  /\ setValue Demo.stringSlice defaultCfg (TBasic reflect.Bool) "true" (DBool false)
     = (DBool true, inr tt)
  /\ setValue Demo.stringSlice defaultCfg (TBasic reflect.Uint) "-5" (DUint 3)
     = (DUint 3, inl (ErrSyntax "ParseUint" "-5")).
Proof.
  split; [reflexivity|].
  destruct (boolean_default_exemption Demo.stringSlice defaultCfg
              (TBasic reflect.Bool) "true" (DBool false) eq_refl)
    as (Hdefault & _ & Hdirect & _ & _ & Hneg).
  split; [exact Hdefault|]. split; [exact Hdirect|].
  apply (Hneg (TBasic reflect.Uint)). unfold unsignedKinds. simpl.
  apply list_elem_of_here.
Defined.

Lemma setSlice_atomic_witness :
  let sv := DSlice (Some [DInt 1]) in
  Demo.stringSlice "[5,x,15]" !! 1%nat = Some "x"
  /\ setValue Demo.stringSlice defaultCfg (TBasic reflect.Int) "x" (DInt 0)
     = (DInt 0, inl (ErrSyntax "ParseInt" "x"))
  /\ setSlice Demo.stringSlice
       (setValue Demo.stringSlice defaultCfg (TBasic reflect.Int))
       (zero (TBasic reflect.Int)) "[5,x,15]" sv
     = (sv, inl (ErrSyntax "ParseInt" "x")).
Proof.
  intros sv. split; [reflexivity|]. split; [reflexivity|].
  destruct (setSlice_atomic Demo.stringSlice defaultCfg (TBasic reflect.Int)
              "[5,x,15]" sv) as (_ & _ & Hfirst & _).
  apply (Hfirst 1%nat "x" (DInt 0) (ErrSyntax "ParseInt" "x") [DInt 5]);
    [|reflexivity|reflexivity].
  constructor; [reflexivity|constructor].
Defined.

Lemma Load_usage_errors_witness :
  let conf := IgnoreFile defaultCfg in
  let run := Load Demo.isZero Demo.stringSlice (Demo.flattenTo [Demo.fieldRequired])
               Demo.isStructPtr (fun _ => false) (fun _ vals _ => inr vals)
               (fun _ _ _ => ret tt) in
  Demo.isStructPtr Demo.target ∅ = true
  /\ ignoreFile conf = true /\ useEnv conf = false
  /\ run conf Demo.environ Demo.target ∅ = (∅, inl (Fatal ErrInvalidSources)).
Proof.
  intros conf run. split; [reflexivity|]. split; [reflexivity|].
  split; [reflexivity|].
  exact (proj1 (proj2 (Load_usage_errors Demo.isZero Demo.stringSlice
                         (Demo.flattenTo [Demo.fieldRequired])
                         Demo.isStructPtr (fun _ => false)
                         (fun _ vals _ => inr vals) (fun _ _ _ => ret tt)
                         conf Demo.environ Demo.target ∅))
           eq_refl eq_refl eq_refl).
Defined.

(** ** More of the engine at work *)

#[local] Existing Instance Demo.decoders.

Lemma setSlice_success_witness :
  setSlice Demo.stringSlice (setValue Demo.stringSlice defaultCfg (TBasic reflect.Int))
    (zero (TBasic reflect.Int)) "[5,10,15]" (DSlice (Some [DInt 1]))
  = (DSlice (Some [DInt 5; DInt 10; DInt 15]), inr tt)
  /\ exists ds,
       DSlice (Some [DInt 5; DInt 10; DInt 15]) = DSlice (Some ds)
       /\ length ds = length (Demo.stringSlice "[5,10,15]")
       /\ Forall2 (fun s d => setValue Demo.stringSlice defaultCfg
                                (TBasic reflect.Int) s (zero (TBasic reflect.Int))
                              = (d, inr tt))
            (Demo.stringSlice "[5,10,15]") ds.
Proof.
  split; [reflexivity|].
  apply (setSlice_success Demo.stringSlice defaultCfg (TBasic reflect.Int)
           "[5,10,15]" (DSlice (Some [DInt 1]))).
  reflexivity.
Defined.

Lemma setValue_failure_frame_witness :
  setValue Demo.stringSlice defaultCfg (TPtr (TBasic reflect.Int)) "abc" (DPtr None)
  = (DPtr (Some (DInt 0)), inl (ErrSyntax "ParseInt" "abc"))
  /\ DPtr (Some (DInt 0)) = allocated (TPtr (TBasic reflect.Int)) (DPtr None).
Proof.
  split; [reflexivity|].
  apply (setValue_failure_frame Demo.stringSlice defaultCfg
           (TPtr (TBasic reflect.Int)) "abc" (DPtr None) _ _ eq_refl).
Defined.

Lemma setValue_fits_witness :
  setValue Demo.stringSlice defaultCfg (TSlice (TBasic reflect.Int8)) "[300,5]"
    (DSlice None)
  = (DSlice (Some [DInt 44; DInt 5]), inr tt)
  /\ fits (TSlice (TBasic reflect.Int8)) (DSlice (Some [DInt 44; DInt 5])) = true.
Proof.
  split; [reflexivity|].
  apply (setValue_fits Demo.stringSlice defaultCfg (TSlice (TBasic reflect.Int8))
           "[300,5]" (DSlice None)).
  reflexivity.
Defined.

Lemma setValue_unsupported_witness :
  Kind (TBasic reflect.Map) ∈ unsupportedKinds
  /\ exists d',
       setValue Demo.stringSlice defaultCfg (ptrTo 1 (TBasic reflect.Map)) "a:1"
         (DPtr None)
       = (d', inl (ErrUnsupportedType reflect.Map))
       /\ (1%nat = 0%nat -> d' = DPtr None).
Proof.
  assert (Hk : Kind (TBasic reflect.Map) ∈ unsupportedKinds)
    by (apply (bool_decide_unpack _); vm_compute; exact I).
  split; [exact Hk|].
  apply (setValue_unsupported Demo.stringSlice defaultCfg (TBasic reflect.Map)
           1 "a:1" (DPtr None)).
  left. exact Hk.
Defined.

Lemma setDefaultValue_pointer_to_bool_witness :
  strconv.ParseBool "true" = inr true
  /\ setDefaultValue Demo.stringSlice defaultCfg (TPtr (TBasic reflect.Bool)) "true"
       (DPtr None)
     = (DPtr (Some (DBool true)), inr tt).
Proof.
  split; [reflexivity|].
  apply (setDefaultValue_pointer_to_bool Demo.stringSlice defaultCfg 0 "true"
           true (DPtr None)).
  reflexivity.
Defined.

Lemma processFields_frame_witness :
  let fields := [Demo.fieldRequired; Demo.fieldX] in
  let σ : gmap loc data := {[ 7%nat := DInt 1 ]} in
  (7%nat ∉ ((fun fld => ptr (fieldV fld)) <$> fields))
  /\ (processFields Demo.isZero Demo.stringSlice defaultCfg ∅ fields ∅ σ).1 !! 7%nat
     = Some (DInt 1).
Proof.
  intros fields σ.
  assert (Hl : 7%nat ∉ ((fun fld => ptr (fieldV fld)) <$> fields)).
  { intros Hin. apply (bool_decide_pack _) in Hin. vm_compute in Hin. exact Hin. }
  split; [exact Hl|].
  exact (processFields_frame Demo.isZero Demo.stringSlice defaultCfg ∅ fields ∅
           σ 7%nat Hl).
Defined.


Lemma untagged_fields_untouched_witness :
  let fld := {| fieldV := {| typ := TBasic reflect.Int; ptr := 0%nat |};
                fieldPath := "Version"; required := false; setDefault := false;
                defaultVal := "" |} in
  useEnv defaultCfg = false
  /\ processFields Demo.isZero Demo.stringSlice defaultCfg Demo.environ [fld] ∅ ∅
     = (∅, ∅).
Proof.
  intros fld. split; [reflexivity|].
  apply (untagged_fields_untouched Demo.isZero Demo.stringSlice defaultCfg
           Demo.environ [fld] ∅ ∅).
  constructor; [|constructor].
  split; [reflexivity|]. split; [reflexivity|]. left. reflexivity.
Defined.

Lemma processField_idempotent_witness :
  processField Demo.isZero Demo.stringSlice defaultCfg ∅ Demo.fieldDefault ∅
  = ({[ 0%nat := DInt 10 ]}, inr tt)
  /\ processField Demo.isZero Demo.stringSlice defaultCfg ∅ Demo.fieldDefault
       {[ 0%nat := DInt 10 ]}
     = ({[ 0%nat := DInt 10 ]}, inr tt).
Proof.
  split; [reflexivity|].
  apply (processField_idempotent Demo.isZero Demo.stringSlice defaultCfg ∅
           Demo.fieldDefault ∅).
  reflexivity.
Defined.

Lemma processCfg_error_witness :
  let flatten := Demo.flattenTo [Demo.fieldRequired; Demo.fieldX] in
  processCfg Demo.isZero Demo.stringSlice flatten defaultCfg ∅ Demo.target ∅
  = ({[ 1%nat := DString "GIRLS" ]}, inl (FieldErrors {[ "y" := ErrRequired ]}))
  /\ exists errs,
       FieldErrors {[ "y" := ErrRequired ]} = FieldErrors errs
       /\ errs <> ∅
       /\ (size errs <= length (flatten Demo.target (tag defaultCfg) ∅).2)%nat
       /\ forall p, is_Some (errs !! p) ->
            exists fld, fld ∈ (flatten Demo.target (tag defaultCfg) ∅).2
                        /\ fieldPath fld = p.
Proof.
  intros flatten. split; [reflexivity|].
  apply (processCfg_error Demo.isZero Demo.stringSlice flatten defaultCfg ∅
           Demo.target ∅ {[ 1%nat := DString "GIRLS" ]}).
  reflexivity.
Defined.

Lemma Load_no_candidate_witness :
  let run := Load Demo.isZero Demo.stringSlice (Demo.flattenTo [Demo.fieldRequired])
               Demo.isStructPtr (fun _ => false) (fun _ vals _ => inr vals)
               (fun _ _ _ => ret tt) in
  Demo.isStructPtr Demo.target ∅ = true
  /\ useEnv defaultCfg = false /\ ignoreFile defaultCfg = false
  /\ run defaultCfg Demo.environ Demo.target ∅
     = (∅, inl (Fatal (ErrFileNotFound ["config.yaml"; "secret.yaml"]))).
Proof.
  intros run. split; [reflexivity|]. split; [reflexivity|]. split; [reflexivity|].
  apply (Load_no_candidate Demo.isZero Demo.stringSlice
           (Demo.flattenTo [Demo.fieldRequired]) Demo.isStructPtr (fun _ => false)
           (fun _ vals _ => inr vals) (fun _ _ _ => ret tt)
           defaultCfg Demo.environ Demo.target ∅);
    reflexivity.
Defined.

Lemma Load_environment_only_witness :
  let conf := UseEnv "fig" (IgnoreFile defaultCfg) in
  let flatten := Demo.flattenTo [Demo.fieldX] in
  let run := Load Demo.isZero Demo.stringSlice flatten Demo.isStructPtr
               (fun _ => true) (fun _ _ file => inl (ErrLibrary "yaml" file))
               (fun _ _ _ => ret tt) in
  Demo.isStructPtr Demo.target ∅ = true
  /\ useEnv conf = true /\ ignoreFile conf = true
  /\ run conf Demo.environ Demo.target ∅
     = processCfg Demo.isZero Demo.stringSlice flatten conf Demo.environ
         Demo.target ∅
  /\ run conf Demo.environ Demo.target ∅ = ({[ 1%nat := DString "MEN" ]}, inr tt).
Proof.
  intros conf flatten run.
  split; [reflexivity|]. split; [reflexivity|]. split; [reflexivity|].
  split; [|reflexivity].
  apply (Load_environment_only Demo.isZero Demo.stringSlice flatten
           Demo.isStructPtr (fun _ => true)
           (fun _ _ file => inl (ErrLibrary "yaml" file)) (fun _ _ _ => ret tt)
           conf Demo.environ Demo.target ∅);
    [reflexivity|reflexivity|left; reflexivity].
Defined.

Lemma Load_decode_failure_witness :
  let exists_ := fun path : string => bool_decide (path = "./config.yaml") in
  let decode := fun (_ : cfg) (_ : list (string * string)) (file : string) =>
                  inl (ErrLibrary "yaml" file)
                  : error + list (string * string) in
  let run := Load Demo.isZero Demo.stringSlice (Demo.flattenTo [Demo.fieldRequired])
               Demo.isStructPtr exists_ decode (fun _ _ _ => ret tt) in
  Demo.isStructPtr Demo.target ∅ = true
  /\ ignoreFile defaultCfg = false
  /\ findCfgFile exists_ defaultCfg = ["./config.yaml"]
  /\ run defaultCfg ∅ Demo.target ∅
     = (∅, inl (Fatal (ErrLibrary "yaml" "./config.yaml"))).
Proof.
  intros exists_ decode run.
  split; [reflexivity|]. split; [reflexivity|]. split; [reflexivity|].
  destruct (Load_decode_failure Demo.isZero Demo.stringSlice
              (Demo.flattenTo [Demo.fieldRequired]) Demo.isStructPtr exists_
              decode (fun _ _ _ => ret tt) defaultCfg ∅ Demo.target ∅
              "./config.yaml" [] eq_refl eq_refl eq_refl) as [Hfile _].
  exact (Hfile (ErrLibrary "yaml" "./config.yaml") eq_refl).
Defined.

Lemma LoadOptions_no_source_witness :
  let opts := [OptFile "settings.json"; OptIgnoreFile; OptUseStrict] in
  let run := LoadOptions Demo.isZero Demo.stringSlice
               (Demo.flattenTo [Demo.fieldRequired]) Demo.isStructPtr
               (fun _ => true) (fun _ vals _ => inr vals) (fun _ _ _ => ret tt) in
  OptIgnoreFile ∈ opts
  /\ Demo.isStructPtr Demo.target ∅ = true
  /\ run (toOption <$> opts) Demo.environ Demo.target ∅
     = (∅, inl (Fatal ErrInvalidSources)).
Proof.
  intros opts run.
  assert (Hi : OptIgnoreFile ∈ opts) by (right; left).
  split; [exact Hi|]. split; [reflexivity|].
  apply (LoadOptions_no_source Demo.isZero Demo.stringSlice
           (Demo.flattenTo [Demo.fieldRequired]) Demo.isStructPtr
           (fun _ => true) (fun _ vals _ => inr vals) (fun _ _ _ => ret tt)
           opts Demo.environ Demo.target ∅ Hi); [|reflexivity].
  intros p Hp.
  repeat (apply elem_of_cons in Hp as [Hp|Hp]; [discriminate Hp|]).
  exact (proj1 (elem_of_nil _) Hp).
Defined.

Lemma envKey_ignores_case_witness :
  let f := UseEnv "myapp" defaultCfg in
  let f' := UseEnv "MYAPP" defaultCfg in
  strings.isASCII (envPrefix f +:+ "server.host") = true
  /\ strings.isASCII (envPrefix f' +:+ "Server.Host") = true
  /\ formatEnvKey f "server.host" = formatEnvKey f' "Server.Host".
Proof.
  intros f f'. split; [reflexivity|]. split; [reflexivity|].
  apply (envKey_ignores_case f f' "server.host" "Server.Host"); reflexivity.
Defined.

Lemma decodeFile_refuses_witness :
  os_Open ("." +:+ "/" +:+ "notes") = inr [("host", "nowhere")]
  /\ ~ In "."%char (list_ascii_of_string "notes")
  /\ Decode.decodeFile ∅ ("." +:+ "/" +:+ "notes") = inl Decode.UnsupportedExtension.
Proof.
  assert (Hdot : ~ In "."%char (list_ascii_of_string "notes")).
  { intros Hin. simpl in Hin.
    repeat (destruct Hin as [Hin|Hin]; [discriminate Hin|]). exact Hin. }
  split; [reflexivity|]. split; [exact Hdot|].
  exact (proj2 (decodeFile_refuses ∅ "." "notes") _ eq_refl Hdot).
Defined.

Lemma decodeFile_toml_merges_witness :
  let vals : gmap string (@Decoded Demo.decoders) :=
    {[ "host" := "0.0.0.0"; "name" := "api" ]} in
  let tree : gmap string (@Decoded Demo.decoders) :=
    {[ "host" := "localhost"; "port" := "8080" ]} in
  Decode.Ext "./extra.toml" = ".toml"
  /\ exists merged,
       Decode.decodeFile vals "./extra.toml" = inr merged
       /\ forall k, merged !! k = match tree !! k with
                                  | Some v => Some v
                                  | None => vals !! k
                                  end.
Proof.
  intros vals tree. split; [reflexivity|].
  apply (decodeFile_toml_merges vals tree "./extra.toml"
           [("host", "localhost"); ("port", "8080")]);
    reflexivity.
Defined.

Lemma processCfg_required_set_witness :
  let flatten := Demo.flattenTo [Demo.fieldRequired; Demo.fieldX] in
  let σ : gmap loc data := {[ 0%nat := DInt 10 ]} in
  processCfg Demo.isZero Demo.stringSlice flatten defaultCfg ∅ Demo.target σ
  = ({[ 0%nat := DInt 10; 1%nat := DString "GIRLS" ]}, inr tt)
  /\ Demo.isZero (TBasic reflect.Int)
       (load {[ 0%nat := DInt 10; 1%nat := DString "GIRLS" ]}
          (fieldV Demo.fieldRequired)) = false.
Proof.
  intros flatten σ. split; [reflexivity|].
  refine (processCfg_required_set Demo.isZero Demo.stringSlice flatten defaultCfg ∅
            Demo.target σ {[ 0%nat := DInt 10; 1%nat := DString "GIRLS" ]}
            eq_refl _ Demo.fieldRequired _ eq_refl).
  - apply (bool_decide_unpack _). vm_compute. exact I.
  - left.
Defined.
